(** * The loco_sim message broker (sim_broker.py)

    A shallow embedding of [Broker] from [sim_broker.py]: the dictionary
    [outgoing_queues], the loop bodies of the three worker threads
    ([_msgreceiver], [_fetchwatcher], [_queueparser]) and the [start]/[stop]
    life cycle, together with the properties the specification states about
    them.

    Wire text (what travels over a socket) is a [string]; binary frames are
    [list byte].  An exception raised by the Python code is [None].  The
    dictionary is a [gmap] from destination names to queues.

    [msg_lib] ([Message], [MsgQueue]) is imported by [sim_broker.py] but is
    not among the sources: its definitions here follow the specification
    and say so.  The frame parser is a parameter of the development. *)

From Stdlib Require Import Strings.String Strings.Ascii Strings.Byte.
From Stdlib Require Import NArith Lia List.
From stdpp Require Import base option list gmap strings.

Local Open Scope string_scope.
Local Open Scope list_scope.

(** ** binascii: the 'hex' codec of Python 2 *)

Module Hex.

(** One lower-case hexadecimal digit, as [binascii.b2a_hex] prints it. *)
Definition digit (n : N) : ascii :=
  match n with
  | 0 => "0" | 1 => "1" | 2 => "2" | 3 => "3" | 4 => "4" | 5 => "5"
  | 6 => "6" | 7 => "7" | 8 => "8" | 9 => "9" | 10 => "a" | 11 => "b"
  | 12 => "c" | 13 => "d" | 14 => "e" | _ => "f"
  end%N%char.

(** The value of a hexadecimal digit; [binascii.a2b_hex] takes both
    cases and raises [TypeError] on any other character. *)
Definition value (c : ascii) : option N :=
  let n := N_of_ascii c in
  if ((48 <=? n) && (n <=? 57))%N then Some (n - 48)%N
  else if ((97 <=? n) && (n <=? 102))%N then Some (n - 87)%N
  else if ((65 <=? n) && (n <=? 70))%N then Some (n - 55)%N
  else None.

(** [s.encode('hex')] on a byte string. *)
Fixpoint encode (bs : list byte) : string :=
  match bs with
  | [] => EmptyString
  | b :: bs' =>
      let n := Byte.to_N b in
      String (digit (n / 16)) (String (digit (n mod 16)) (encode bs'))
  end.

(** [s.decode('hex')]: [None] stands for the [TypeError] raised on an odd
    length or on a character that is no hexadecimal digit. *)
Fixpoint decode (s : string) : option (list byte) :=
  match s with
  | EmptyString => Some []
  | String _ EmptyString => None
  | String c1 (String c2 s') =>
      match value c1, value c2 with
      | Some h, Some l =>
          match Byte.of_N (16 * h + l), decode s' with
          | Some b, Some bs => Some (b :: bs)
          | _, _ => None
          end
      | _, _ => None
      end
  end.

End Hex.

(** ** Sockets *)

(** One accepted connection, seen from the broker: the text the peer wrote,
    and whether [conn.recv] and [conn.send] raise (reset, timeout); a
    connection on which sending raises stays that way. *)
Record Conn := {
  peer_data : string;
  recv_raises : bool;
  send_raises : bool
}.

(** The first [bufsize] characters of [data]. *)
Fixpoint take_chars (bufsize : nat) (data : string) : string :=
  match bufsize, data with
  | S n, String c s => String c (take_chars n s)
  | _, _ => EmptyString
  end.

(** [conn.recv(bufsize)]: at most [bufsize] characters are read. *)
Definition conn_recv (c : Conn) (bufsize : nat) : option string :=
  if recv_raises c then None else Some (take_chars bufsize (peer_data c)).

Fixpoint all_ascii (s : string) : bool :=
  match s with
  | EmptyString => true
  | String c s' => (N_of_ascii c <? 128)%N && all_ascii s'
  end.

(** [s.decode()] with Python 2's default codec: [UnicodeDecodeError] on a
    character outside ASCII. *)
Definition py_decode (s : string) : option string :=
  if all_ascii s then Some s else None.

(** ** msg_lib: Message and MsgQueue *)

(** Modelled from the spec: [msg_lib.Message] is not part of the sources.
    A Message has a numeric type, a sender and a destination address, a
    payload that is opaque to the broker, and [raw_msg], "the exact
    wire-encoded byte sequence received".  The broker reads [dest_addr],
    [sender_addr] and [raw_msg] only. *)
Record Message := {
  msg_type : N;
  sender_addr : string;
  dest_addr : string;
  payload : list byte;
  raw_msg : list byte
}.

(** Modelled from the spec: [msg_lib.MsgQueue] is not part of the sources.
    A Queue is "an ordered sequence of Messages", served "in arrival
    order"; popping "removes it permanently from the queue".  [pop] on an
    empty queue raises [Queue.Empty], the exception [sim_broker.py]
    imports. *)
Abbreviation MsgQueue := (list Message).

(** Modelled from the spec: [MsgQueue()], a queue "created lazily", empty. *)
Definition MsgQueue_new : MsgQueue := [].

(** Modelled from the spec: [MsgQueue.push], which puts the message behind
    those that arrived before it. *)
Definition MsgQueue_push (q : MsgQueue) (msg : Message) : MsgQueue :=
  q ++ [msg].

(** Modelled from the spec: [MsgQueue.pop], which takes the message that
    arrived first out of the queue and returns it; [None] is [Queue.Empty]
    raised on an empty queue. *)
Definition MsgQueue_pop (q : MsgQueue) : option (Message * MsgQueue) :=
  match q with
  | [] => None
  | msg :: q' => Some (msg, q')
  end.

(** What the handling of one connection does, in program order: text sent
    back, the connection closed, a message pushed on the queue of its
    destination, a message popped from the queue of a name. *)
Inductive Event :=
| Send (text : string)
| Close
| Push (msg : Message)
| Pop (queue_name : string) (msg : Message).

(** ** The broker *)

Record Broker := {
  outgoing_queues : gmap string MsgQueue;
  running : bool;
  repl_running : bool
}.

(** [Broker.__init__] *)
Definition Broker_init : Broker :=
  {| outgoing_queues := ∅; running := false; repl_running := false |}.

(** [Broker.start]: unless the broker is running already, the flag is set
    and the three worker threads are started; with [terminal], the REPL is
    entered unless it is running already. *)
Definition start (terminal : bool) (b : Broker) : Broker :=
  let b1 :=
    if running b then b
    else {| outgoing_queues := outgoing_queues b;
            running := true;
            repl_running := repl_running b |} in
  if terminal && negb (repl_running b1) then
    {| outgoing_queues := outgoing_queues b1;
       running := running b1;
       repl_running := true |}
  else b1.

(** [Broker.stop]: if the broker is running, the flag is cleared, the
    receiver and the fetch watcher are joined and the three thread objects
    are made anew.  [outgoing_queues] is not assigned. *)
Definition stop (b : Broker) : Broker :=
  if running b then
    {| outgoing_queues := outgoing_queues b;
       running := false;
       repl_running := repl_running b |}
  else b.

Section Workers.

(** [max_msg_size] of conf.dat. *)
Variable MAX_MSG_SIZE : nat.

(** The EMP frame parser of [msg_lib], absent from the sources: type,
    sender, destination and payload of a frame, or [None] where it
    raises. *)
Variable to_tuple : list byte → option (N * string * string * list byte).

(** Modelled from the spec: [Message(raw)], the constructor of
    [msg_lib.Message] applied to a byte string; [raw_msg] keeps the
    bytes received. *)
Definition Message_of_raw (raw : list byte) : option Message :=
  match to_tuple raw with
  | Some (t, s, d, p) =>
      Some {| msg_type := t; sender_addr := s; dest_addr := d;
              payload := p; raw_msg := raw |}
  | None => None
  end.

(** Lines 124-125 of [_msgreceiver] on the text received:
    [Message(data.decode().decode('hex'))]. *)
Definition decode_frame (data : string) : option Message :=
  raw_msg ← py_decode data;
  frame ← Hex.decode raw_msg;
  Message_of_raw frame.

Definition msgreceiver_read (conn : Conn) : option Message :=
  data ← conn_recv conn MAX_MSG_SIZE;
  decode_frame data.

(** The [try] statement of [_msgreceiver] (lines 122-135): the Message
    when the loop body goes on to the queues, [None] on [continue]. *)
Definition msgreceiver_try (conn : Conn) : option Message * list Event :=
  match msgreceiver_read conn with
  | Some msg =>
      if send_raises conn then (None, [Close])
      else (Some msg, [Send "OK"; Close])
  | None =>
      (None, if send_raises conn then [Close] else [Send "FAIL"; Close])
  end.

(** Lines 137-140 of [_msgreceiver]. *)
Definition enqueue (oq : gmap string MsgQueue) (msg : Message)
  : gmap string MsgQueue :=
  let oq1 :=
    match oq !! dest_addr msg with
    | Some _ => oq
    | None => <[dest_addr msg := MsgQueue_new]> oq
    end in
  alter (λ q, MsgQueue_push q msg) (dest_addr msg) oq1.

(** The body of the [_msgreceiver] loop for one accepted connection. *)
Definition msgreceiver_conn (oq : gmap string MsgQueue) (conn : Conn)
  : gmap string MsgQueue * list Event :=
  match msgreceiver_try conn with
  | (Some msg, evs) => (enqueue oq msg, evs ++ [Push msg])
  | (None, evs) => (oq, evs)
  end.

(** Line 167 of [_fetchwatcher]: the queue name requested. *)
Definition fetchwatcher_read (conn : Conn) : option string :=
  data ← conn_recv conn MAX_MSG_SIZE;
  py_decode data.

(** The body of the [_fetchwatcher] loop for one accepted connection. *)
Definition fetchwatcher_conn (oq : gmap string MsgQueue) (conn : Conn)
  : gmap string MsgQueue * list Event :=
  match fetchwatcher_read conn with
  | None => (oq, [])
  | Some queue_name =>
      match q ← oq !! queue_name; MsgQueue_pop q with
      | None =>
          (oq, if send_raises conn then [] else [Send "EMPTY"; Close])
      | Some (msg, q') =>
          (<[queue_name := q']> oq,
           Pop queue_name msg ::
             if send_raises conn then []
             else [Send (Hex.encode (raw_msg msg)); Close])
      end
  end.

(** The body of the [_queueparser] loop: [sleep(REFRESH_TIME)]. *)
Definition queueparser_iter (oq : gmap string MsgQueue)
  : gmap string MsgQueue := oq.

(** Replaying an event of a handler on the dictionary: what [Push] and
    [Pop] do to it; sending and closing leave it alone. *)
Definition apply_event (oq : gmap string MsgQueue) (e : Event)
  : gmap string MsgQueue :=
  match e with
  | Push msg => enqueue oq msg
  | Pop queue_name _ => alter (drop 1) queue_name oq
  | Send _ | Close => oq
  end.

(** Each event of a handler with the dictionary as it is when the event
    happens. *)
Fixpoint timeline (oq : gmap string MsgQueue) (evs : list Event)
  : list (Event * gmap string MsgQueue) :=
  match evs with
  | [] => []
  | e :: evs' => (e, oq) :: timeline (apply_event oq e) evs'
  end.

(** The texts sent to the peer. *)
Definition sent (evs : list Event) : list string :=
  omap (λ e, match e with Send text => Some text | _ => None end) evs.

(** The messages pushed on, and popped from, the queue of [d]. *)
Definition pushed (d : string) (evs : list Event) : list Message :=
  omap (λ e, match e with
             | Push msg => if decide (dest_addr msg = d) then Some msg else None
             | _ => None
             end) evs.

Definition popped (d : string) (evs : list Event) : list Message :=
  omap (λ e, match e with
             | Pop queue_name msg =>
                 if decide (queue_name = d) then Some msg else None
             | _ => None
             end) evs.

(** The message is in the queue of its destination at every moment at
    which "OK" is sent. *)
Definition enqueued_when_acknowledged (oq : gmap string MsgQueue)
    (evs : list Event) (msg : Message) : Prop :=
  ∀ oq', (Send "OK", oq') ∈ timeline oq evs →
         msg ∈ default [] (oq' !! dest_addr msg).

(** ** Runs of the broker *)

Inductive op :=
| OpStart (terminal : bool)
| OpStop
| OpSubmit (conn : Conn)
| OpFetch (conn : Conn)
| OpSweep.

Definition with_queues (b : Broker) (oq : gmap string MsgQueue) : Broker :=
  {| outgoing_queues := oq; running := running b;
     repl_running := repl_running b |}.

(** One call of [start] or [stop], or one turn of a worker loop, which
    tests [self.running] first. *)
Definition exec (b : Broker) (o : op) : Broker * list Event :=
  match o with
  | OpStart terminal => (start terminal b, [])
  | OpStop => (stop b, [])
  | OpSubmit conn =>
      if running b then
        let '(oq, evs) := msgreceiver_conn (outgoing_queues b) conn in
        (with_queues b oq, evs)
      else (b, [])
  | OpFetch conn =>
      if running b then
        let '(oq, evs) := fetchwatcher_conn (outgoing_queues b) conn in
        (with_queues b oq, evs)
      else (b, [])
  | OpSweep =>
      if running b then
        (with_queues b (queueparser_iter (outgoing_queues b)), [])
      else (b, [])
  end.

Fixpoint run (b : Broker) (ops : list op) : Broker * list (list Event) :=
  match ops with
  | [] => (b, [])
  | o :: ops' =>
      let '(b1, evs) := exec b o in
      let '(b2, log) := run b1 ops' in
      (b2, evs :: log)
  end.

End Workers.

(** ** A frame layout for concrete runs *)

(** Modelled from the spec: the frame layout of [msg_lib] is not part of
    the sources.  The wire frame is "{version, type, senderAddress,
    destAddress, payloadLength, payload}", and decoding fails "if the byte
    length is inconsistent with the declared payload length".  The spec
    gives no field widths: here the version (4, for EMP V4), the type and
    the three lengths take one byte each.  Only the concrete runs below use
    this layout; the general statements hold for every parser. *)
Definition emp_to_tuple (raw : list byte)
  : option (N * string * string * list byte) :=
  match raw with
  | v :: t :: sl :: dl :: pl :: rest =>
      let sl := N.to_nat (Byte.to_N sl) in
      let dl := N.to_nat (Byte.to_N dl) in
      let pl := N.to_nat (Byte.to_N pl) in
      if decide (Byte.to_N v = 4%N ∧ length rest = sl + dl + pl) then
        Some (Byte.to_N t,
              string_of_list_byte (take sl rest),
              string_of_list_byte (take dl (drop sl rest)),
              drop (sl + dl) rest)
      else None
  | _ => None
  end.

Module Sample.

(** A peer that writes [data] on a connection that works. *)
Definition peer (data : string) : Conn :=
  {| peer_data := data; recv_raises := false; send_raises := false |}.

(** A peer whose connection breaks when the broker answers. *)
Definition deaf_peer (data : string) : Conn :=
  {| peer_data := data; recv_raises := false; send_raises := true |}.

(** Type 1, from "bos" to "loco", payload 01 02. *)
Definition frame_A : string := "0401030402626f736c6f636f0102".

(** Type 2, from "bos" to "loco", payload 03. *)
Definition frame_B : string := "0402030401626f736c6f636f03".


Definition msg_A : Message :=
  {| msg_type := 1; sender_addr := "bos"; dest_addr := "loco";
     payload := [x01; x02]%byte;
     raw_msg := [x04; x01; x03; x04; x02; x62; x6f; x73;
                 x6c; x6f; x63; x6f; x01; x02]%byte |}.

Definition msg_B : Message :=
  {| msg_type := 2; sender_addr := "bos"; dest_addr := "loco";
     payload := [x03]%byte;
     raw_msg := [x04; x02; x03; x04; x01; x62; x6f; x73;
                 x6c; x6f; x63; x6f; x03]%byte |}.

(** [frame_A] followed by four more characters. *)
Definition frame_long : string := "0401030402626f736c6f636f0102ffff".

(** A broker that has been started. *)
Definition started : Broker := start false Broker_init.

End Sample.

(** ** Further notions used below *)

(** [s.lower()] on ASCII text. *)
Definition lower_ascii (c : ascii) : ascii :=
  let n := N_of_ascii c in
  if ((65 <=? n) && (n <=? 90))%N then ascii_of_N (n + 32) else c.

Fixpoint py_lower (s : string) : string :=
  match s with
  | EmptyString => EmptyString
  | String c s' => String (lower_ascii c) (py_lower s')
  end.

(** Every message of every queue satisfies [P], given the name of the
    queue it is in. *)
Definition all_queued (P : string → Message → Prop)
    (oq : gmap string MsgQueue) : Prop :=
  ∀ (d : string) (q : MsgQueue) (msg : Message),
    oq !! d = Some q → msg ∈ q → P d msg.

(** ** threading.Thread and the life cycles *)

(** A [threading.Thread] object, as far as [start] and [join] care. *)
Inductive Thread := NotStarted | Started.

(** [Thread.start()]: [RuntimeError] on a thread started before. *)
Definition Thread_start (t : Thread) : option Thread :=
  match t with
  | NotStarted => Some Started
  | Started => None
  end.

(** [Thread.join(timeout)]: [RuntimeError] on a thread not started yet. *)
Definition Thread_join (t : Thread) : option Thread :=
  match t with
  | Started => Some Started
  | NotStarted => None
  end.

(** How a call of a method ends. *)
Inductive outcome := Returned | Raised.

(** A call of [start] or of [stop]. *)
Inductive call :=
| CallStart (terminal : bool)
| CallStop.

(** *** sim_broker.py: the Broker object with its three thread objects *)

Record BrokerObj := {
  state : Broker;
  msg_recvr : Thread;
  fetch_watcher : Thread;
  queue_parser : Thread
}.

(** [Broker.__init__] *)
Definition BrokerObj_init : BrokerObj :=
  {| state := Broker_init; msg_recvr := NotStarted;
     fetch_watcher := NotStarted; queue_parser := NotStarted |}.

Definition set_running (r : bool) (b : Broker) : Broker :=
  {| outgoing_queues := outgoing_queues b; running := r;
     repl_running := repl_running b |}.

(** Lines 74-78 of [Broker.start]: an exception leaves the object as the
    statements before it have made it. *)
Definition Broker_start_threads (o : BrokerObj) : BrokerObj * outcome :=
  if running (state o) then (o, Returned)
  else
    let s := set_running true (state o) in
    match Thread_start (msg_recvr o) with
    | None =>
        ({| state := s; msg_recvr := msg_recvr o;
            fetch_watcher := fetch_watcher o;
            queue_parser := queue_parser o |}, Raised)
    | Some t1 =>
        match Thread_start (fetch_watcher o) with
        | None =>
            ({| state := s; msg_recvr := t1;
                fetch_watcher := fetch_watcher o;
                queue_parser := queue_parser o |}, Raised)
        | Some t2 =>
            match Thread_start (queue_parser o) with
            | None =>
                ({| state := s; msg_recvr := t1; fetch_watcher := t2;
                    queue_parser := queue_parser o |}, Raised)
            | Some t3 =>
                ({| state := s; msg_recvr := t1; fetch_watcher := t2;
                    queue_parser := t3 |}, Returned)
            end
        end
    end.

(** [Broker.start] *)
Definition Broker_start (terminal : bool) (o : BrokerObj)
  : BrokerObj * outcome :=
  match Broker_start_threads o with
  | (o1, Raised) => (o1, Raised)
  | (o1, Returned) =>
      if terminal && negb (repl_running (state o1)) then
        ({| state := {| outgoing_queues := outgoing_queues (state o1);
                        running := running (state o1);
                        repl_running := true |};
            msg_recvr := msg_recvr o1;
            fetch_watcher := fetch_watcher o1;
            queue_parser := queue_parser o1 |}, Returned)
      else (o1, Returned)
  end.

(** [Broker.stop]: the receiver and the fetch watcher are joined, then the
    three thread objects are made anew. *)
Definition Broker_stop (o : BrokerObj) : BrokerObj * outcome :=
  if running (state o) then
    let s := set_running false (state o) in
    match Thread_join (msg_recvr o), Thread_join (fetch_watcher o) with
    | Some _, Some _ =>
        ({| state := s; msg_recvr := NotStarted;
            fetch_watcher := NotStarted; queue_parser := NotStarted |},
         Returned)
    | _, _ =>
        ({| state := s; msg_recvr := msg_recvr o;
            fetch_watcher := fetch_watcher o;
            queue_parser := queue_parser o |}, Raised)
    end
  else (o, Returned).

Definition Broker_call (o : BrokerObj) (c : call) : BrokerObj * outcome :=
  match c with
  | CallStart terminal => Broker_start terminal o
  | CallStop => Broker_stop o
  end.

(** A sequence of calls on one object; a call that raises does not keep
    the caller from calling again. *)
Fixpoint Broker_calls (o : BrokerObj) (cs : list call)
  : BrokerObj * list outcome :=
  match cs with
  | [] => (o, [])
  | c :: cs' =>
      let '(o1, r) := Broker_call o c in
      let '(o2, rs) := Broker_calls o1 cs' in
      (o2, r :: rs)
  end.

(** The same calls on the flags alone, with [start] and [stop]. *)
Definition flags_call (b : Broker) (c : call) : Broker :=
  match c with
  | CallStart terminal => start terminal b
  | CallStop => stop b
  end.

(** *** sim_loco.py: SimLoco.start and SimLoco.stop *)

Record SimLoco := {
  loco_running : bool;
  repl_started : bool;
  movement_thread : Thread;
  messaging_thread : Thread
}.

(** The fields that [SimLoco.__init__] gives to the simulation. *)
Definition SimLoco_init : SimLoco :=
  {| loco_running := false; repl_started := false;
     movement_thread := NotStarted; messaging_thread := NotStarted |}.

(** [SimLoco.start]: the REPL is looked at only when the threads have just
    been started. *)
Definition SimLoco_start (terminal : bool) (l : SimLoco)
  : SimLoco * outcome :=
  if loco_running l then (l, Returned)
  else
    match Thread_start (movement_thread l) with
    | None =>
        ({| loco_running := true; repl_started := repl_started l;
            movement_thread := movement_thread l;
            messaging_thread := messaging_thread l |}, Raised)
    | Some t1 =>
        match Thread_start (messaging_thread l) with
        | None =>
            ({| loco_running := true; repl_started := repl_started l;
                movement_thread := t1;
                messaging_thread := messaging_thread l |}, Raised)
        | Some t2 =>
            ({| loco_running := true;
                repl_started :=
                  if terminal && negb (repl_started l) then true
                  else repl_started l;
                movement_thread := t1; messaging_thread := t2 |}, Returned)
        end
    end.

(** [SimLoco.stop] *)
Definition SimLoco_stop (l : SimLoco) : SimLoco * outcome :=
  if loco_running l then
    match Thread_join (movement_thread l), Thread_join (messaging_thread l) with
    | Some _, Some _ =>
        ({| loco_running := false; repl_started := repl_started l;
            movement_thread := NotStarted;
            messaging_thread := NotStarted |}, Returned)
    | _, _ =>
        ({| loco_running := false; repl_started := repl_started l;
            movement_thread := movement_thread l;
            messaging_thread := messaging_thread l |}, Raised)
    end
  else (l, Returned).

Definition SimLoco_call (l : SimLoco) (c : call) : SimLoco * outcome :=
  match c with
  | CallStart terminal => SimLoco_start terminal l
  | CallStop => SimLoco_stop l
  end.

Fixpoint SimLoco_calls (l : SimLoco) (cs : list call)
  : SimLoco * list outcome :=
  match cs with
  | [] => (l, [])
  | c :: cs' =>
      let '(l1, r) := SimLoco_call l c in
      let '(l2, rs) := SimLoco_calls l1 cs' in
      (l2, r :: rs)
  end.

(** *** sim_bos.py: BOS.start *)

Record BOS := {
  bos_running : bool;
  status_watcher_thread : Thread;
  webupdate_thread : Thread;
  locos_table : string
}.

(** The fields that [BOS.__init__] sets, and the module's [locos_table]. *)
Definition BOS_init : BOS :=
  {| bos_running := false; status_watcher_thread := NotStarted;
     webupdate_thread := NotStarted; locos_table := "" |}.

(** [BOS.start]: [web_run_raises] says whether [web.run], which blocks
    until the web interface is killed, ends by raising. *)
Definition BOS_start (web_run_raises : bool) (o : BOS) : BOS * outcome :=
  match Thread_start (status_watcher_thread o) with
  | None =>
      ({| bos_running := true;
          status_watcher_thread := status_watcher_thread o;
          webupdate_thread := webupdate_thread o;
          locos_table := locos_table o |}, Raised)
  | Some t1 =>
      match Thread_start (webupdate_thread o) with
      | None =>
          ({| bos_running := true; status_watcher_thread := t1;
              webupdate_thread := webupdate_thread o;
              locos_table := locos_table o |}, Raised)
      | Some t2 =>
          if web_run_raises then
            ({| bos_running := true; status_watcher_thread := t1;
                webupdate_thread := t2;
                locos_table := "teststatus1" |}, Raised)
          else
            match Thread_join t1, Thread_join t2 with
            | Some _, Some _ =>
                ({| bos_running := false; status_watcher_thread := t1;
                    webupdate_thread := t2;
                    locos_table := "teststatus1" |}, Returned)
            | _, _ =>
                ({| bos_running := false; status_watcher_thread := t1;
                    webupdate_thread := t2;
                    locos_table := "teststatus1" |}, Raised)
            end
      end
  end.

(** The thread objects of a Broker are started exactly when it is
    running. *)
Definition Broker_threads_ok (o : BrokerObj) : Prop :=
  let t := if running (state o) then Started else NotStarted in
  msg_recvr o = t ∧ fetch_watcher o = t ∧ queue_parser o = t.

(** The same for a SimLoco. *)
Definition SimLoco_threads_ok (l : SimLoco) : Prop :=
  let t := if loco_running l then Started else NotStarted in
  movement_thread l = t ∧ messaging_thread l = t.

(** ** More frames for concrete runs *)

Module Sample2.

(** [Sample.frame_A] as a sender may write it, in upper case. *)
Definition frame_A_upper : string := "0401030402626F736C6F636F0102".

(** A destination of one character that is not ASCII (code 200). *)
Definition name_C : string := String "200"%char EmptyString.

(** Type 1, from "bos" to [name_C], no payload. *)
Definition frame_C : string := "0401030100626f73c8".

Definition msg_C : Message :=
  {| msg_type := 1; sender_addr := "bos"; dest_addr := name_C;
     payload := [];
     raw_msg := [x04; x01; x03; x01; x00; x62; x6f; x73; xc8]%byte |}.

(** Type 2, from "bos" to [name_C], payload 07. *)
Definition frame_D : string := "0402030101626f73c807".

Definition msg_D : Message :=
  {| msg_type := 2; sender_addr := "bos"; dest_addr := name_C;
     payload := [x07]%byte;
     raw_msg := [x04; x02; x03; x01; x01; x62; x6f; x73; xc8; x07]%byte |}.

(** [Sample.frame_A] with a character that is no hexadecimal digit. *)
Definition frame_A_typo : string := "0401030402626f736c6f636g0102".

End Sample2.

(** * Properties *)

(** ** The hex codec *)

Lemma Hex_decode_encode_byte (b : byte) :
  Hex.decode (Hex.encode [b]) = Some [b].
Proof. destruct b; vm_compute; reflexivity. Qed.

(** Decoding undoes encoding. *)
Lemma Hex_decode_encode (bs : list byte) :
  Hex.decode (Hex.encode bs) = Some bs.
Proof.
  induction bs as [|b bs IH]; [reflexivity|].
  pose proof (Hex_decode_encode_byte b) as Hb.
  cbn [Hex.encode Hex.decode] in Hb |- *.
  destruct (Hex.value (Hex.digit (Byte.to_N b / 16))) as [h|]; [|discriminate].
  destruct (Hex.value (Hex.digit (Byte.to_N b mod 16))) as [l|]; [|discriminate].
  rewrite IH.
  destruct (Byte.of_N (16 * h + l)) as [b'|]; [|discriminate].
  congruence.
Qed.

(** No message is mistaken for the sentinel: a hex text has an even
    length. *)
Lemma Hex_encode_not_EMPTY (bs : list byte) : Hex.encode bs ≠ "EMPTY".
Proof.
  intros H. apply (f_equal Hex.decode) in H.
  rewrite Hex_decode_encode in H. discriminate.
Qed.

(** Two byte strings with one hex form are equal. *)
Lemma Hex_encode_inj (bs1 bs2 : list byte) :
  Hex.encode bs1 = Hex.encode bs2 → bs1 = bs2.
Proof.
  intros H. apply (f_equal Hex.decode) in H.
  rewrite !Hex_decode_encode in H. congruence.
Qed.

(** ** Receiving *)

Lemma take_chars_all (n : nat) (data : string) :
  (String.length data ≤ n)%nat → take_chars n data = data.
Proof.
  revert n. induction data as [|c data IH]; intros [|n] Hn; cbn in *;
    try reflexivity; try lia.
  f_equal. apply IH. lia.
Qed.

Lemma take_chars_length (n : nat) (data : string) :
  (String.length (take_chars n data) ≤ n)%nat.
Proof.
  revert data. induction n as [|n IH]; intros [|c data]; cbn; try lia.
  specialize (IH data). lia.
Qed.

Lemma take_chars_idemp (n : nat) (data : string) :
  take_chars n (take_chars n data) = take_chars n data.
Proof. apply take_chars_all, take_chars_length. Qed.

Lemma py_decode_Some (s t : string) : py_decode s = Some t → t = s.
Proof. unfold py_decode. destruct (all_ascii s); congruence. Qed.

(** ** The queues *)

Section QueueFacts.

Implicit Types (oq : gmap string MsgQueue) (msg : Message).

(** Lines 137-140 amount to one assignment of the lengthened queue. *)
Lemma enqueue_insert oq msg :
  enqueue oq msg =
  <[dest_addr msg := default [] (oq !! dest_addr msg) ++ [msg]]> oq.
Proof.
  unfold enqueue, MsgQueue_new, MsgQueue_push.
  destruct (oq !! dest_addr msg) as [q|] eqn:Hq; cbn.
  - apply map_eq. intros k. rewrite lookup_alter, lookup_insert.
    repeat case_decide; subst; try congruence. by rewrite Hq.
  - apply map_eq. intros k. rewrite lookup_alter, !lookup_insert.
    repeat case_decide; subst; try congruence. reflexivity.
Qed.

Lemma enqueue_lookup oq msg :
  enqueue oq msg !! dest_addr msg =
  Some (default [] (oq !! dest_addr msg) ++ [msg]).
Proof. by rewrite enqueue_insert, lookup_insert_eq. Qed.

Lemma enqueue_lookup_ne oq msg (d : string) :
  d ≠ dest_addr msg → enqueue oq msg !! d = oq !! d.
Proof. intros. by rewrite enqueue_insert, lookup_insert_ne. Qed.

Lemma enqueue_dom oq msg :
  dom (enqueue oq msg) = {[dest_addr msg]} ∪ dom oq.
Proof. by rewrite enqueue_insert, dom_insert_L. Qed.

(** Whether an empty [MsgQueue] counts as false in line 138 makes no
    difference: replacing an empty queue by a new one changes nothing. *)
Lemma enqueue_empty_queue_falsy oq msg :
  oq !! dest_addr msg = Some [] →
  enqueue (<[dest_addr msg := MsgQueue_new]> oq) msg = enqueue oq msg.
Proof.
  intros H. rewrite !enqueue_insert, lookup_insert_eq, H.
  by rewrite insert_insert_eq.
Qed.

End QueueFacts.

(** ** The loop bodies *)

Section HandlerFacts.

Variable MAX_MSG_SIZE : nat.
Variable to_tuple : list byte → option (N * string * string * list byte).

Implicit Types (oq : gmap string MsgQueue) (conn : Conn) (msg : Message).

Local Abbreviation msgreceiver_read := (msgreceiver_read MAX_MSG_SIZE to_tuple).
Local Abbreviation msgreceiver_try := (msgreceiver_try MAX_MSG_SIZE to_tuple).
Local Abbreviation msgreceiver_conn := (msgreceiver_conn MAX_MSG_SIZE to_tuple).
Local Abbreviation fetchwatcher_read := (fetchwatcher_read MAX_MSG_SIZE).
Local Abbreviation fetchwatcher_conn := (fetchwatcher_conn MAX_MSG_SIZE).
Local Abbreviation decode_frame := (decode_frame to_tuple).

Lemma msgreceiver_read_recv conn :
  recv_raises conn = false →
  msgreceiver_read conn =
  decode_frame (take_chars MAX_MSG_SIZE (peer_data conn)).
Proof. intros H. unfold msgreceiver_read, conn_recv. by rewrite H. Qed.

(** A decoded frame carries the bytes that its hex text stands for. *)
Lemma decode_frame_raw (data : string) msg :
  decode_frame data = Some msg → Hex.decode data = Some (raw_msg msg).
Proof.
  unfold decode_frame, Message_of_raw, py_decode.
  destruct (all_ascii data); cbn; [|discriminate].
  destruct (Hex.decode data) as [frame|]; cbn; [|discriminate].
  destruct (to_tuple frame) as [[[[t s] d] p]|]; [|discriminate].
  intros [= <-]. reflexivity.
Qed.

Lemma msgreceiver_conn_decoded oq conn msg :
  msgreceiver_read conn = Some msg →
  msgreceiver_conn oq conn =
  if send_raises conn then (oq, [Close])
  else (enqueue oq msg, [Send "OK"; Close; Push msg]).
Proof.
  intros H. unfold msgreceiver_conn, msgreceiver_try.
  rewrite H. by destruct (send_raises conn).
Qed.

Lemma msgreceiver_conn_failed oq conn :
  msgreceiver_read conn = None →
  msgreceiver_conn oq conn =
  (oq, if send_raises conn then [Close] else [Send "FAIL"; Close]).
Proof.
  intros H. unfold msgreceiver_conn, msgreceiver_try.
  by rewrite H.
Qed.

Lemma fetchwatcher_conn_hit oq conn (queue_name : string) msg (q : MsgQueue) :
  fetchwatcher_read conn = Some queue_name →
  oq !! queue_name = Some (msg :: q) →
  fetchwatcher_conn oq conn =
  (<[queue_name := q]> oq,
   Pop queue_name msg ::
     if send_raises conn then []
     else [Send (Hex.encode (raw_msg msg)); Close]).
Proof.
  intros Hr Hq. unfold fetchwatcher_conn. by rewrite Hr, Hq.
Qed.

Lemma fetchwatcher_conn_miss oq conn (queue_name : string) :
  fetchwatcher_read conn = Some queue_name →
  default [] (oq !! queue_name) = [] →
  fetchwatcher_conn oq conn =
  (oq, if send_raises conn then [] else [Send "EMPTY"; Close]).
Proof.
  intros Hr Hq. unfold fetchwatcher_conn. rewrite Hr.
  destruct (oq !! queue_name) as [q|]; cbn in *; by subst.
Qed.

(** The events of a handler account for all it does to the dictionary. *)
Lemma msgreceiver_conn_replay oq conn :
  foldl apply_event oq (msgreceiver_conn oq conn).2 =
  (msgreceiver_conn oq conn).1.
Proof.
  destruct (msgreceiver_read conn) as [msg|] eqn:H.
  - rewrite (msgreceiver_conn_decoded _ _ _ H).
    by destruct (send_raises conn).
  - rewrite (msgreceiver_conn_failed _ _ H).
    by destruct (send_raises conn).
Qed.

Lemma fetchwatcher_conn_replay oq conn :
  foldl apply_event oq (fetchwatcher_conn oq conn).2 =
  (fetchwatcher_conn oq conn).1.
Proof.
  unfold fetchwatcher_conn.
  destruct (fetchwatcher_read conn) as [queue_name|]; [|done].
  destruct (oq !! queue_name) as [[|msg q]|] eqn:Hq; cbn;
    [by destruct (send_raises conn)| |by destruct (send_raises conn)].
  assert (alter (drop 1) queue_name oq = <[queue_name := q]> oq) as ->.
  { apply map_eq. intros k. rewrite lookup_alter, lookup_insert.
    case_decide; subst; [by rewrite Hq|done]. }
  by destruct (send_raises conn).
Qed.

(** What a fetch sends is nothing (the connection broke), EMPTY, or the
    hex text of the [raw_msg] of the message it has just popped from the
    head of the queue asked for. *)
Lemma fetchwatcher_conn_sent oq conn :
  sent (fetchwatcher_conn oq conn).2 = [] ∨
  (fetchwatcher_conn oq conn).2 = [Send "EMPTY"; Close] ∨
  ∃ (d : string) msg (q : MsgQueue),
    oq !! d = Some (msg :: q) ∧
    (fetchwatcher_conn oq conn).2 =
    [Pop d msg; Send (Hex.encode (raw_msg msg)); Close].
Proof.
  unfold fetchwatcher_conn.
  destruct (fetchwatcher_read conn) as [queue_name|]; [|by left].
  destruct (oq !! queue_name) as [[|msg q]|] eqn:Hq; cbn;
    destruct (send_raises conn); cbn; eauto 10.
Qed.

(** A message is pushed only with the bytes that the text received stands
    for. *)
Lemma msgreceiver_conn_pushed oq conn msg :
  Push msg ∈ (msgreceiver_conn oq conn).2 →
  Hex.decode (take_chars MAX_MSG_SIZE (peer_data conn)) = Some (raw_msg msg).
Proof.
  destruct (msgreceiver_read conn) as [msg'|] eqn:Hread.
  - rewrite (msgreceiver_conn_decoded _ _ _ Hread).
    destruct (send_raises conn); cbn; intros Hin.
    + by apply list_elem_of_singleton in Hin.
    + apply elem_of_cons in Hin as [?|Hin]; [done|].
      apply elem_of_cons in Hin as [?|Hin]; [done|].
      apply list_elem_of_singleton in Hin as [= ->].
      unfold msgreceiver_read, conn_recv in Hread.
      destruct (recv_raises conn); [done|].
      by apply (decode_frame_raw _ _ Hread).
  - rewrite (msgreceiver_conn_failed _ _ Hread).
    destruct (send_raises conn); intros Hin.
    + by apply list_elem_of_singleton in Hin.
    + apply elem_of_cons in Hin as [?|Hin]; [done|].
      by apply list_elem_of_singleton in Hin.
Qed.

End HandlerFacts.

(** ** Runs *)

Section RunFacts.

Variable MAX_MSG_SIZE : nat.
Variable to_tuple : list byte → option (N * string * string * list byte).

Implicit Types (oq : gmap string MsgQueue) (conn : Conn) (msg : Message).
Implicit Types (b : Broker) (ops : list op) (d : string).

Local Abbreviation msgreceiver_read := (msgreceiver_read MAX_MSG_SIZE to_tuple).
Local Abbreviation msgreceiver_try := (msgreceiver_try MAX_MSG_SIZE to_tuple).
Local Abbreviation msgreceiver_conn := (msgreceiver_conn MAX_MSG_SIZE to_tuple).
Local Abbreviation fetchwatcher_read := (fetchwatcher_read MAX_MSG_SIZE).
Local Abbreviation fetchwatcher_conn := (fetchwatcher_conn MAX_MSG_SIZE).
Local Abbreviation decode_frame := (decode_frame to_tuple).
Local Abbreviation exec := (exec MAX_MSG_SIZE to_tuple).
Local Abbreviation run := (run MAX_MSG_SIZE to_tuple).

Lemma stop_queues b : outgoing_queues (stop b) = outgoing_queues b.
Proof. unfold stop. by destruct (running b). Qed.

Lemma stop_running b : running (stop b) = false.
Proof. unfold stop. by destruct (running b) eqn:H. Qed.

Lemma start_queues (terminal : bool) b :
  outgoing_queues (start terminal b) = outgoing_queues b.
Proof.
  unfold start. by destruct (running b), terminal, (repl_running b).
Qed.

Lemma start_running (terminal : bool) b : running (start terminal b) = true.
Proof.
  unfold start.
  by destruct (running b) eqn:H, terminal, (repl_running b); cbn; rewrite ?H.
Qed.

Lemma with_queues_same b : with_queues b (outgoing_queues b) = b.
Proof. by destruct b. Qed.

Lemma run_cons b o ops :
  run b (o :: ops) =
  ((run (exec b o).1 ops).1, (exec b o).2 :: (run (exec b o).1 ops).2).
Proof.
  change (run b (o :: ops)) with
    (let '(b1, evs) := exec b o in
     let '(b2, log) := run b1 ops in (b2, evs :: log)).
  destruct (exec b o) as [b1 evs]. cbn [fst snd].
  by destruct (run b1 ops).
Qed.

Lemma run_app b ops1 ops2 :
  run b (ops1 ++ ops2) =
  ((run (run b ops1).1 ops2).1,
   (run b ops1).2 ++ (run (run b ops1).1 ops2).2).
Proof.
  revert b. induction ops1 as [|o ops1 IH]; intros b.
  - cbn. by destruct (run b ops2).
  - rewrite <- app_comm_cons, !run_cons, IH. reflexivity.
Qed.

Lemma exec_submit_decoded b conn msg :
  running b = true →
  msgreceiver_read conn = Some msg →
  send_raises conn = false →
  exec b (OpSubmit conn) =
  (with_queues b (enqueue (outgoing_queues b) msg),
   [Send "OK"; Close; Push msg]).
Proof.
  intros Hrun Hread Hsend. cbn. rewrite Hrun.
  by rewrite (msgreceiver_conn_decoded _ _ _ _ _ Hread), Hsend.
Qed.

Lemma exec_fetch_hit b conn d msg (q : MsgQueue) :
  running b = true →
  fetchwatcher_read conn = Some d →
  send_raises conn = false →
  outgoing_queues b !! d = Some (msg :: q) →
  exec b (OpFetch conn) =
  (with_queues b (<[d := q]> (outgoing_queues b)),
   [Pop d msg; Send (Hex.encode (raw_msg msg)); Close]).
Proof.
  intros Hrun Hread Hsend Hq. cbn. rewrite Hrun.
  by rewrite (fetchwatcher_conn_hit _ _ _ _ _ _ Hread Hq), Hsend.
Qed.

Lemma exec_fetch_miss b conn d :
  running b = true →
  fetchwatcher_read conn = Some d →
  send_raises conn = false →
  default [] (outgoing_queues b !! d) = [] →
  exec b (OpFetch conn) = (b, [Send "EMPTY"; Close]).
Proof.
  intros Hrun Hread Hsend Hq. cbn. rewrite Hrun.
  rewrite (fetchwatcher_conn_miss _ _ _ _ Hread Hq), Hsend.
  by rewrite with_queues_same.
Qed.

Lemma exec_sweep b : exec b OpSweep = (b, []).
Proof.
  cbn. unfold queueparser_iter. rewrite with_queues_same.
  by destruct (running b).
Qed.

(** The turns of [_queueparser] change nothing, however many. *)
Lemma run_sweeps b (n : nat) : run b (repeat OpSweep n) = (b, repeat [] n).
Proof.
  induction n as [|n IH]; [done|].
  cbn [repeat]. rewrite run_cons, exec_sweep. cbn [fst snd]. by rewrite IH.
Qed.

(** Fetching as many times as the queue has messages in front of [rest]
    serves these messages, oldest first. *)
Lemma run_fetch_drain (q rest : MsgQueue) b conn d :
  running b = true →
  fetchwatcher_read conn = Some d →
  send_raises conn = false →
  outgoing_queues b !! d = Some (q ++ rest) →
  let r := run b (repeat (OpFetch conn) (length q)) in
  running r.1 = true ∧
  outgoing_queues r.1 = <[d := rest]> (outgoing_queues b) ∧
  r.2 = map (λ m, [Pop d m; Send (Hex.encode (raw_msg m)); Close]) q.
Proof.
  revert b. induction q as [|m q IH]; intros b Hrun Hread Hsend Hq; cbn zeta.
  - cbn. split; [done|]. split; [|done]. by rewrite insert_id.
  - cbn [length repeat]. rewrite run_cons.
    rewrite <- app_comm_cons in Hq.
    rewrite (exec_fetch_hit _ _ _ _ _ Hrun Hread Hsend Hq). cbn [fst snd].
    destruct (IH (with_queues b (<[d := q ++ rest]> (outgoing_queues b))))
      as (IH1 & IH2 & IH3); try done.
    { cbn. by rewrite lookup_insert_eq. }
    split; [done|]. split.
    + rewrite IH2. cbn. by rewrite insert_insert_eq.
    + cbn [map]. by rewrite IH3.
Qed.

End RunFacts.

(** ** The names of the queues *)

Section DomFacts.

Variable MAX_MSG_SIZE : nat.
Variable to_tuple : list byte → option (N * string * string * list byte).

Implicit Types (oq : gmap string MsgQueue) (conn : Conn) (msg : Message).
Implicit Types (b : Broker) (ops : list op) (d : string).

Local Abbreviation msgreceiver_read := (msgreceiver_read MAX_MSG_SIZE to_tuple).
Local Abbreviation msgreceiver_conn := (msgreceiver_conn MAX_MSG_SIZE to_tuple).
Local Abbreviation fetchwatcher_conn := (fetchwatcher_conn MAX_MSG_SIZE).
Local Abbreviation exec := (exec MAX_MSG_SIZE to_tuple).
Local Abbreviation run := (run MAX_MSG_SIZE to_tuple).

Lemma fetchwatcher_conn_dom oq conn :
  dom (fetchwatcher_conn oq conn).1 = dom oq.
Proof.
  unfold fetchwatcher_conn.
  destruct (fetchwatcher_read MAX_MSG_SIZE conn) as [queue_name|]; [|done].
  destruct (oq !! queue_name) as [[|msg q]|] eqn:Hq; cbn; try done.
  apply dom_insert_lookup_L. eauto.
Qed.

(** A turn of [_msgreceiver] leaves the names alone, or adds the
    destination of the message it has decoded and acknowledged. *)
Lemma msgreceiver_conn_dom oq conn :
  dom (msgreceiver_conn oq conn).1 = dom oq ∨
  ∃ msg, msgreceiver_read conn = Some msg ∧ send_raises conn = false ∧
         oq !! dest_addr msg = None ∧
         dom (msgreceiver_conn oq conn).1 = {[dest_addr msg]} ∪ dom oq.
Proof.
  destruct (msgreceiver_read conn) as [msg|] eqn:Hread.
  - rewrite (msgreceiver_conn_decoded _ _ _ _ _ Hread).
    destruct (send_raises conn) eqn:Hsend; [by left|]. cbn [fst].
    destruct (oq !! dest_addr msg) as [q|] eqn:Hq.
    + left. rewrite enqueue_insert. apply dom_insert_lookup_L. eauto.
    + right. exists msg. by rewrite enqueue_dom.
  - left. by rewrite (msgreceiver_conn_failed _ _ _ _ Hread).
Qed.

Lemma exec_dom b o :
  dom (outgoing_queues (exec b o).1) = dom (outgoing_queues b) ∨
  ∃ conn msg,
    o = OpSubmit conn ∧ running b = true ∧
    msgreceiver_read conn = Some msg ∧ send_raises conn = false ∧
    outgoing_queues b !! dest_addr msg = None ∧
    dom (outgoing_queues (exec b o).1) =
    {[dest_addr msg]} ∪ dom (outgoing_queues b).
Proof.
  destruct o as [t| |conn|conn|]; cbn -[start stop].
  - left. by rewrite start_queues.
  - left. by rewrite stop_queues.
  - destruct (running b) eqn:Hrun; [|by left].
    destruct (msgreceiver_conn_dom (outgoing_queues b) conn)
      as [Heq|(msg & H1 & H2 & H3 & H4)].
    + left. by destruct (msgreceiver_conn _ conn).
    + right. exists conn, msg. repeat split; try done.
      by destruct (msgreceiver_conn _ conn).
  - destruct (running b); [|by left]. left.
    pose proof (fetchwatcher_conn_dom (outgoing_queues b) conn).
    by destruct (fetchwatcher_conn _ conn).
  - by destruct (running b); left.
Qed.

Lemma exec_dom_subseteq b o :
  dom (outgoing_queues b) ⊆ dom (outgoing_queues (exec b o).1).
Proof.
  destruct (exec_dom b o) as [->|(? & ? & _ & _ & _ & _ & _ & ->)];
    set_solver.
Qed.

Lemma run_dom_subseteq b ops :
  dom (outgoing_queues b) ⊆ dom (outgoing_queues (run b ops).1).
Proof.
  revert b. induction ops as [|o ops IH]; intros b; [done|].
  rewrite run_cons. cbn [fst].
  etrans; [apply (exec_dom_subseteq b o)|apply IH].
Qed.

End DomFacts.

(** ** Nothing is served twice *)

Section Conservation.

Variable MAX_MSG_SIZE : nat.
Variable to_tuple : list byte → option (N * string * string * list byte).

Implicit Types (oq : gmap string MsgQueue) (conn : Conn) (msg : Message).
Implicit Types (b : Broker) (ops : list op) (d : string).

Local Abbreviation msgreceiver_read := (msgreceiver_read MAX_MSG_SIZE to_tuple).
Local Abbreviation msgreceiver_conn := (msgreceiver_conn MAX_MSG_SIZE to_tuple).
Local Abbreviation fetchwatcher_conn := (fetchwatcher_conn MAX_MSG_SIZE).
Local Abbreviation exec := (exec MAX_MSG_SIZE to_tuple).
Local Abbreviation run := (run MAX_MSG_SIZE to_tuple).

Lemma msgreceiver_conn_conserves oq conn d :
  popped d (msgreceiver_conn oq conn).2 ++
    default [] ((msgreceiver_conn oq conn).1 !! d) =
  default [] (oq !! d) ++ pushed d (msgreceiver_conn oq conn).2.
Proof.
  destruct (msgreceiver_read conn) as [msg|] eqn:Hread.
  - rewrite (msgreceiver_conn_decoded _ _ _ _ _ Hread).
    destruct (send_raises conn); cbn; [by rewrite app_nil_r|].
    case_decide as Hd.
    + subst d. by rewrite enqueue_lookup.
    + rewrite enqueue_lookup_ne by done. by rewrite app_nil_r.
  - rewrite (msgreceiver_conn_failed _ _ _ _ Hread).
    destruct (send_raises conn); cbn; by rewrite app_nil_r.
Qed.

Lemma fetchwatcher_conn_conserves oq conn d :
  popped d (fetchwatcher_conn oq conn).2 ++
    default [] ((fetchwatcher_conn oq conn).1 !! d) =
  default [] (oq !! d) ++ pushed d (fetchwatcher_conn oq conn).2.
Proof.
  unfold fetchwatcher_conn.
  destruct (fetchwatcher_read MAX_MSG_SIZE conn) as [queue_name|];
    [|by cbn; rewrite app_nil_r].
  destruct (oq !! queue_name) as [[|msg q]|] eqn:Hq; cbn;
    try (destruct (send_raises conn); cbn; by rewrite app_nil_r).
  case_decide as Hd.
  - subst d. rewrite lookup_insert_eq, Hq.
    destruct (send_raises conn); cbn; by rewrite app_nil_r.
  - rewrite lookup_insert_ne by done.
    destruct (send_raises conn); cbn; by rewrite app_nil_r.
Qed.

Lemma exec_conserves b o d :
  popped d (exec b o).2 ++ default [] (outgoing_queues (exec b o).1 !! d) =
  default [] (outgoing_queues b !! d) ++ pushed d (exec b o).2.
Proof.
  destruct o as [t| |conn|conn|]; cbn -[start stop].
  - by rewrite start_queues, app_nil_r.
  - by rewrite stop_queues, app_nil_r.
  - destruct (running b); [|by cbn; rewrite app_nil_r].
    pose proof (msgreceiver_conn_conserves (outgoing_queues b) conn d).
    by destruct (msgreceiver_conn _ conn).
  - destruct (running b); [|by cbn; rewrite app_nil_r].
    pose proof (fetchwatcher_conn_conserves (outgoing_queues b) conn d).
    by destruct (fetchwatcher_conn _ conn).
  - destruct (running b); cbn; by rewrite app_nil_r.
Qed.

(** Along any run, what was popped from the queue of [d] followed by
    what the queue still holds is what it held at first followed by what
    was pushed on it. *)
Lemma run_conserves b ops d :
  popped d (concat (run b ops).2) ++
    default [] (outgoing_queues (run b ops).1 !! d) =
  default [] (outgoing_queues b !! d) ++ pushed d (concat (run b ops).2).
Proof.
  revert b. induction ops as [|o ops IH]; intros b.
  - cbn. by rewrite app_nil_r.
  - rewrite run_cons. cbn [fst snd concat].
    unfold popped, pushed in *. rewrite !omap_app.
    rewrite <- (assoc (++)), IH, !(assoc (++)).
    f_equal. apply exec_conserves.
Qed.

End Conservation.

(** * The statements of the specification *)

Section Claims.

Variable MAX_MSG_SIZE : nat.
Variable to_tuple : list byte → option (N * string * string * list byte).

Implicit Types (oq : gmap string MsgQueue) (conn : Conn) (msg : Message).
Implicit Types (b : Broker) (ops : list op) (d : string).

Local Abbreviation msgreceiver_read := (msgreceiver_read MAX_MSG_SIZE to_tuple).
Local Abbreviation msgreceiver_try := (msgreceiver_try MAX_MSG_SIZE to_tuple).
Local Abbreviation msgreceiver_conn := (msgreceiver_conn MAX_MSG_SIZE to_tuple).
Local Abbreviation fetchwatcher_read := (fetchwatcher_read MAX_MSG_SIZE).
Local Abbreviation fetchwatcher_conn := (fetchwatcher_conn MAX_MSG_SIZE).
Local Abbreviation decode_frame := (decode_frame to_tuple).
Local Abbreviation exec := (exec MAX_MSG_SIZE to_tuple).
Local Abbreviation run := (run MAX_MSG_SIZE to_tuple).

Lemma sent_served (q : MsgQueue) d :
  map sent (map (λ m, [Pop d m; Send (Hex.encode (raw_msg m)); Close]) q) =
  map (λ m, [Hex.encode (raw_msg m)]) q.
Proof. by rewrite map_map. Qed.

(** Fetching once more than the queue is long serves all of it, oldest
    first, and then answers EMPTY. *)
Lemma run_fetch_all (q : MsgQueue) b conn d :
  running b = true →
  fetchwatcher_read conn = Some d →
  send_raises conn = false →
  outgoing_queues b !! d = Some q →
  map sent (run b (repeat (OpFetch conn) (length q + 1))).2 =
  map (λ m, [Hex.encode (raw_msg m)]) q ++ [["EMPTY"]].
Proof.
  intros Hrun Hread Hsend Hq.
  rewrite repeat_app, run_app. cbn [snd].
  destruct (run_fetch_drain MAX_MSG_SIZE to_tuple q [] b conn d)
    as (H1 & H2 & H3); try done.
  { by rewrite app_nil_r. }
  rewrite H3, map_app, sent_served. f_equal.
  cbn [repeat]. rewrite run_cons.
  rewrite (exec_fetch_miss _ _ _ _ d H1 Hread Hsend).
  - reflexivity.
  - by rewrite H2, lookup_insert_eq.
Qed.

(** C3, as the code has it. A fetch whose name the loop can read (the
    first MAX_MSG_SIZE characters received, when they are ASCII) and for
    which, so read, there is no queue or an empty one, is answered in that
    same turn of the loop with the text EMPTY, which no message can be
    mistaken for; the turn ends there and the dictionary is left as it
    was: no queue is made for the name and nothing waits for a message to
    come.  A name that cannot be read is outside this statement. *)
Theorem fetch_of_nothing_answers_EMPTY oq conn d :
  fetchwatcher_read conn = Some d →
  send_raises conn = false →
  oq !! d = None ∨ oq !! d = Some [] →
  fetchwatcher_conn oq conn = (oq, [Send "EMPTY"; Close]) ∧
  ∀ raw : list byte, Hex.encode raw ≠ "EMPTY".
Proof.
  intros Hread Hsend Hq. split; [|apply Hex_encode_not_EMPTY].
  rewrite (fetchwatcher_conn_miss _ _ _ d Hread), Hsend; [done|].
  by destruct Hq as [-> | ->].
Qed.


(** C6, as the code has it. On a successful decode the submit loop
    first answers OK and closes the connection, and only then pushes the
    Message on the queue of its destination, which it makes if there is
    none: when OK is sent the dictionary is still as it was before.  If
    the answer cannot be sent, the message is not pushed at all. *)
Theorem ok_is_sent_before_the_push oq conn msg :
  msgreceiver_read conn = Some msg →
  (send_raises conn = false →
   msgreceiver_conn oq conn = (enqueue oq msg, [Send "OK"; Close; Push msg]) ∧
   timeline oq (msgreceiver_conn oq conn).2 =
     [(Send "OK", oq); (Close, oq); (Push msg, oq)] ∧
   enqueue oq msg !! dest_addr msg =
     Some (default [] (oq !! dest_addr msg) ++ [msg])) ∧
  (send_raises conn = true → msgreceiver_conn oq conn = (oq, [Close])).
Proof.
  intros Hread.
  rewrite (msgreceiver_conn_decoded _ _ _ _ _ Hread).
  split; intros ->; [|done].
  split; [done|]. split; [done|]. apply enqueue_lookup.
Qed.

(** C8, as the code has it. The submit loop reads at most MAX_MSG_SIZE
    characters and decodes what it has read: a longer submission is not
    refused, it is handled exactly as its first MAX_MSG_SIZE characters
    alone would be, and what lies beyond them has no effect. *)
Theorem long_submission_is_cut_not_refused oq conn :
  msgreceiver_conn oq conn =
  msgreceiver_conn oq
    {| peer_data := take_chars MAX_MSG_SIZE (peer_data conn);
       recv_raises := recv_raises conn;
       send_raises := send_raises conn |}.
Proof.
  unfold msgreceiver_conn, msgreceiver_try, msgreceiver_read, conn_recv.
  cbn. by rewrite take_chars_idemp.
Qed.

(** C10. In a fetch the message is popped before the answer is sent.
    When the sending then raises, the turn of the loop is given up with
    the message popped and nothing sent: the dictionary is the one a
    fetch whose answer went through leaves behind, with the rest of the
    queue in place of the queue, so that nothing that follows can tell
    the two apart and the message is not served again. *)
Theorem pop_is_not_undone_when_send_fails oq conn d msg (q : MsgQueue) :
  fetchwatcher_read conn = Some d →
  oq !! d = Some (msg :: q) →
  send_raises conn = true →
  fetchwatcher_conn oq conn = (<[d := q]> oq, [Pop d msg]) ∧
  (<[d := q]> oq) !! d = Some q ∧
  ∀ conn', fetchwatcher_read conn' = Some d →
           send_raises conn' = false →
           (fetchwatcher_conn oq conn').1 = (fetchwatcher_conn oq conn).1 ∧
           timeline oq (fetchwatcher_conn oq conn').2 =
             [(Pop d msg, oq);
              (Send (Hex.encode (raw_msg msg)), alter (drop 1) d oq);
              (Close, alter (drop 1) d oq)] ∧
           alter (drop 1) d oq = <[d := q]> oq.
Proof.
  intros Hread Hq Hsend.
  rewrite (fetchwatcher_conn_hit _ _ _ _ _ _ Hread Hq), Hsend.
  split; [done|]. split; [by rewrite lookup_insert_eq|].
  intros conn' Hread' Hsend'.
  rewrite (fetchwatcher_conn_hit _ _ _ _ _ _ Hread' Hq), Hsend'.
  split; [done|]. split; [done|].
  apply map_eq. intros k. rewrite lookup_alter, lookup_insert.
  case_decide; subst; [by rewrite Hq|done].
Qed.

(** C1, as the code has it. A frame that the submit loop has decoded and
    acknowledged comes back, once the older messages of its destination
    have been fetched, as the hex text of the bytes that the text
    received, which is the first MAX_MSG_SIZE characters submitted, stood
    for: decoding the text of the answer gives the bytes that decoding
    the text received gave.  These are the bytes submitted when the
    submission fits in MAX_MSG_SIZE.
    No clock is consulted.  In general, a message is only ever pushed
    with the bytes its text stood for as [raw_msg], and what a fetch
    sends is nothing, EMPTY, or the hex text of the [raw_msg] of the
    message popped: the answer is built from the stored bytes alone,
    whatever the parser made of the other fields. *)
Theorem fetch_returns_the_bytes_submitted
    b (sconn fconn : Conn) msg (q : MsgQueue) :
  running b = true →
  recv_raises sconn = false →
  send_raises sconn = false →
  decode_frame (take_chars MAX_MSG_SIZE (peer_data sconn)) = Some msg →
  fetchwatcher_read fconn = Some (dest_addr msg) →
  send_raises fconn = false →
  default [] (outgoing_queues b !! dest_addr msg) = q →
  map sent
    (run b (OpSubmit sconn :: repeat (OpFetch fconn) (length q + 1))).2 =
    ["OK"] :: map (λ m, [Hex.encode (raw_msg m)]) q ++
    [[Hex.encode (raw_msg msg)]] ∧
  Hex.decode (Hex.encode (raw_msg msg)) =
    Hex.decode (take_chars MAX_MSG_SIZE (peer_data sconn)) ∧
  Hex.decode (take_chars MAX_MSG_SIZE (peer_data sconn)) =
    Some (raw_msg msg) ∧
  ((String.length (peer_data sconn) ≤ MAX_MSG_SIZE)%nat →
   Hex.decode (Hex.encode (raw_msg msg)) = Hex.decode (peer_data sconn)) ∧
  (∀ oq conn msg',
     Push msg' ∈ (msgreceiver_conn oq conn).2 →
     Hex.decode (take_chars MAX_MSG_SIZE (peer_data conn)) =
       Some (raw_msg msg')) ∧
  (∀ oq conn,
     sent (fetchwatcher_conn oq conn).2 = [] ∨
     (fetchwatcher_conn oq conn).2 = [Send "EMPTY"; Close] ∨
     ∃ (d : string) msg' (q' : MsgQueue),
       oq !! d = Some (msg' :: q') ∧
       (fetchwatcher_conn oq conn).2 =
       [Pop d msg'; Send (Hex.encode (raw_msg msg')); Close]).
Proof.
  intros Hrun Hrecv Hsend Hdec Hread Hfsend Hq.
  pose proof (decode_frame_raw _ _ _ Hdec) as Hraw.
  rewrite Hex_decode_encode, Hraw.
  split; [|split; [done|split; [done|split; [|split]]]];
    [| |apply msgreceiver_conn_pushed|apply fetchwatcher_conn_sent].
  - rewrite <- msgreceiver_read_recv in Hdec by done.
    rewrite run_cons, (exec_submit_decoded _ _ _ _ _ Hrun Hdec Hsend).
    cbn [fst snd map]. f_equal.
    replace (length q + 1) with (length (q ++ [msg]))
      by (rewrite length_app; reflexivity).
    destruct (run_fetch_drain MAX_MSG_SIZE to_tuple (q ++ [msg]) []
                (with_queues b (enqueue (outgoing_queues b) msg))
                fconn (dest_addr msg)) as (_ & _ & ->); try done.
    + cbn. by rewrite enqueue_lookup, Hq, app_nil_r.
    + by rewrite sent_served, map_app.
  - intros Hlen. by rewrite take_chars_all in Hraw.
Qed.

(** C2, as the code has it. Messages A and then B, decoded and
    acknowledged for one destination whose name the fetch loop can read
    (ASCII, at most MAX_MSG_SIZE characters), are served after the
    messages that were already waiting there, A first and B second, each
    once: the fetch after them answers EMPTY.  Along every run, for every
    destination, the messages popped followed by those still queued are
    the messages queued at first followed by those pushed, in the same
    order: a message is popped at most once, and in the order of
    arrival. *)
Theorem fifo_and_served_once
    b (connA connB fconn : Conn) (msgA msgB : Message) d (q : MsgQueue) :
  running b = true →
  msgreceiver_read connA = Some msgA → send_raises connA = false →
  msgreceiver_read connB = Some msgB → send_raises connB = false →
  dest_addr msgA = d → dest_addr msgB = d →
  fetchwatcher_read fconn = Some d → send_raises fconn = false →
  default [] (outgoing_queues b !! d) = q →
  map sent
    (run b (OpSubmit connA :: OpSubmit connB ::
            repeat (OpFetch fconn) (length q + 3))).2 =
    [["OK"]; ["OK"]] ++
    map (λ m, [Hex.encode (raw_msg m)]) (q ++ [msgA; msgB]) ++
    [["EMPTY"]] ∧
  ∀ b' ops d',
    popped d' (concat (run b' ops).2) ++
      default [] (outgoing_queues (run b' ops).1 !! d') =
    default [] (outgoing_queues b' !! d') ++
      pushed d' (concat (run b' ops).2).
Proof.
  intros Hrun HA HsA HB HsB HdA HdB Hread Hsend Hq.
  split; [|apply run_conserves].
  rewrite run_cons, (exec_submit_decoded _ _ _ _ _ Hrun HA HsA).
  cbn [fst snd].
  rewrite run_cons.
  rewrite (exec_submit_decoded MAX_MSG_SIZE to_tuple (with_queues b _)
             connB msgB Hrun HB HsB).
  cbn [fst snd map app]. do 2 f_equal.
  replace (length q + 3) with (length (q ++ [msgA; msgB]) + 1)
    by (rewrite length_app; cbn; lia).
  apply (run_fetch_all _ _ _ d); try done.
  cbn. subst d. rewrite <- HdB, enqueue_lookup, HdB, enqueue_lookup, Hq.
  cbn. by rewrite <- (assoc (++)).
Qed.

(** C5, on the code. A message that has been decoded and acknowledged
    is served by the next fetch for its destination however many turns
    the sweeper has slept in between: [_queueparser] removes nothing and
    the fetch consults no clock, so the answer is the message, which is
    never the text EMPTY, also after its time to live is over. *)
Theorem message_is_served_after_any_delay
    b (sconn fconn : Conn) msg (n : nat) :
  running b = true →
  msgreceiver_read sconn = Some msg → send_raises sconn = false →
  fetchwatcher_read fconn = Some (dest_addr msg) →
  send_raises fconn = false →
  default [] (outgoing_queues b !! dest_addr msg) = [] →
  map sent
    (run b (OpSubmit sconn :: repeat OpSweep n ++ [OpFetch fconn])).2 =
    ["OK"] :: repeat [] n ++ [[Hex.encode (raw_msg msg)]] ∧
  Hex.encode (raw_msg msg) ≠ "EMPTY".
Proof.
  intros Hrun Hdec Hsend Hread Hfsend Hq.
  split; [|apply Hex_encode_not_EMPTY].
  rewrite run_cons, (exec_submit_decoded _ _ _ _ _ Hrun Hdec Hsend).
  cbn [fst snd map]. f_equal.
  rewrite run_app, run_sweeps. cbn [fst snd].
  rewrite map_app. f_equal.
  - induction n as [|n IH]; [done|]. cbn. by rewrite IH.
  - rewrite run_cons.
    rewrite (exec_fetch_hit _ _ _ _ (dest_addr msg) msg []); try done.
    cbn. by rewrite enqueue_lookup, Hq.
Qed.

(** C7, as the code has it. [stop] clears the running flag and nothing
    else: every queue holds after [stop], and after a following [start],
    what it held before, and the broker is running again after the
    [start].  The dictionary is empty only when the Broker object is
    made. *)
Theorem stop_keeps_the_queues b ops (terminal : bool) :
  outgoing_queues (run b (ops ++ [OpStop])).1 =
    outgoing_queues (run b ops).1 ∧
  running (run b (ops ++ [OpStop])).1 = false ∧
  outgoing_queues (run b (ops ++ [OpStop; OpStart terminal])).1 =
    outgoing_queues (run b ops).1 ∧
  running (run b (ops ++ [OpStop; OpStart terminal])).1 = true ∧
  outgoing_queues Broker_init = ∅.
Proof.
  rewrite !run_app. cbn -[start stop].
  by rewrite start_queues, !stop_queues, start_running, stop_running.
Qed.

(** C9. The names of the queues only grow along a run.  A fetch leaves
    them as they are, whether or not the name asked for has a queue.
    Any one step leaves them as they are, unless it is a submission
    decoded and acknowledged whose destination had no queue, which adds
    that destination and nothing else.  No step takes a name away. *)
Theorem queue_names_only_grow :
  (∀ b ops,
     dom (outgoing_queues b) ⊆ dom (outgoing_queues (run b ops).1)) ∧
  (∀ b conn,
     dom (outgoing_queues (exec b (OpFetch conn)).1) =
     dom (outgoing_queues b)) ∧
  (∀ b o,
     dom (outgoing_queues (exec b o).1) = dom (outgoing_queues b) ∨
     ∃ conn msg,
       o = OpSubmit conn ∧ running b = true ∧
       msgreceiver_read conn = Some msg ∧ send_raises conn = false ∧
       outgoing_queues b !! dest_addr msg = None ∧
       dom (outgoing_queues (exec b o).1) =
       {[dest_addr msg]} ∪ dom (outgoing_queues b)).
Proof.
  split; [apply run_dom_subseteq|]. split; [|apply exec_dom].
  intros b conn.
  destruct (exec_dom MAX_MSG_SIZE to_tuple b (OpFetch conn))
    as [H|(? & ? & [=] & _)]; done.
Qed.

End Claims.

(** * Concrete runs *)

Section Runs.

Import Sample.

Local Abbreviation MAX := 64%nat.

(** Hypotheses on concrete data are settled by evaluation. *)
Local Ltac evaluate := vm_compute; reflexivity.

Lemma fetch_returns_the_bytes_submitted_witness :
  map sent (run MAX emp_to_tuple started
              [OpSubmit (peer frame_A); OpFetch (peer "loco")]).2 =
    [["OK"]; [frame_A]] ∧
  Hex.decode frame_A = Some (raw_msg msg_A).
Proof.
  pose proof (fetch_returns_the_bytes_submitted MAX emp_to_tuple started
                (peer frame_A) (peer "loco") msg_A []
                ltac:(evaluate) ltac:(evaluate) ltac:(evaluate) ltac:(evaluate)
                ltac:(evaluate) ltac:(evaluate) ltac:(evaluate))
    as (H1 & _ & H3 & _).
  split; [exact H1|exact H3].
Defined.

Lemma fifo_and_served_once_witness :
  map sent (run MAX emp_to_tuple started
              [OpSubmit (peer frame_A); OpSubmit (peer frame_B);
               OpFetch (peer "loco"); OpFetch (peer "loco");
               OpFetch (peer "loco")]).2 =
    [["OK"]; ["OK"]; [frame_A]; [frame_B]; ["EMPTY"]].
Proof.
  exact (proj1 (fifo_and_served_once MAX emp_to_tuple started
                  (peer frame_A) (peer frame_B) (peer "loco")
                  msg_A msg_B "loco" []
                  ltac:(evaluate) ltac:(evaluate) ltac:(evaluate) ltac:(evaluate)
                  ltac:(evaluate) ltac:(evaluate) ltac:(evaluate) ltac:(evaluate)
                  ltac:(evaluate) ltac:(evaluate))).
Defined.

Lemma fetch_of_nothing_answers_EMPTY_witness :
  fetchwatcher_conn MAX ∅ (peer "loco") = (∅, [Send "EMPTY"; Close]).
Proof.
  exact (proj1 (fetch_of_nothing_answers_EMPTY MAX ∅ (peer "loco") "loco"
                  ltac:(evaluate) ltac:(evaluate) (or_introl eq_refl))).
Defined.


Lemma message_is_served_after_any_delay_witness :
  map sent (run MAX emp_to_tuple started
              [OpSubmit (peer frame_A); OpSweep; OpSweep; OpSweep;
               OpFetch (peer "loco")]).2 =
    [["OK"]; []; []; []; [frame_A]].
Proof.
  exact (proj1 (message_is_served_after_any_delay MAX emp_to_tuple started
                  (peer frame_A) (peer "loco") msg_A 3
                  ltac:(evaluate) ltac:(evaluate) ltac:(evaluate) ltac:(evaluate)
                  ltac:(evaluate) ltac:(evaluate))).
Defined.

Lemma ok_is_sent_before_the_push_witness :
  timeline ∅ (msgreceiver_conn MAX emp_to_tuple ∅ (peer frame_A)).2 =
    [(Send "OK", ∅); (Close, ∅); (Push msg_A, ∅)].
Proof.
  pose proof (proj1 (ok_is_sent_before_the_push MAX emp_to_tuple ∅
                       (peer frame_A) msg_A ltac:(evaluate)) ltac:(evaluate))
    as (_ & H & _).
  exact H.
Defined.

Lemma pop_is_not_undone_when_send_fails_witness :
  fetchwatcher_conn MAX {["loco" := [msg_A; msg_B]]} (deaf_peer "loco") =
    (<["loco" := [msg_B]]> {["loco" := [msg_A; msg_B]]}, [Pop "loco" msg_A]).
Proof.
  exact (proj1 (pop_is_not_undone_when_send_fails MAX
                  {["loco" := [msg_A; msg_B]]} (deaf_peer "loco")
                  "loco" msg_A [msg_B]
                  ltac:(evaluate) ltac:(evaluate) ltac:(evaluate))).
Defined.

(** C6, as the specification has it, fails: [frame_A] is decoded and OK
    is sent while the dictionary has no queue for "loco" yet. *)
Lemma ok_sent_while_not_enqueued :
  msgreceiver_read MAX emp_to_tuple (peer frame_A) = Some msg_A ∧
  sent (msgreceiver_conn MAX emp_to_tuple ∅ (peer frame_A)).2 = ["OK"] ∧
  ¬ enqueued_when_acknowledged ∅
      (msgreceiver_conn MAX emp_to_tuple ∅ (peer frame_A)).2 msg_A.
Proof.
  split; [evaluate|]. split; [evaluate|].
  intros H. specialize (H ∅).
  assert (msg_A ∈ default [] ((∅ : gmap string MsgQueue) !! dest_addr msg_A))
    as Hin.
  { apply H. vm_compute. apply list_elem_of_here. }
  rewrite lookup_empty in Hin. by apply not_elem_of_nil in Hin.
Qed.

(** C7, as the specification has it, fails: a message submitted before
    [stop] is still queued after it, and is served after the next
    [start]. *)
Lemma message_survives_stop :
  outgoing_queues
    (run MAX emp_to_tuple Broker_init
       [OpStart false; OpSubmit (peer frame_A); OpStop]).1 !! "loco" =
    Some [msg_A] ∧
  map sent
    (run MAX emp_to_tuple Broker_init
       [OpStart false; OpSubmit (peer frame_A); OpStop; OpStart false;
        OpFetch (peer "loco")]).2 =
    [[]; ["OK"]; []; []; [frame_A]].
Proof. split; evaluate. Qed.

(** C8, as the specification has it, fails: with a bound of 28
    characters, a submission of 32 is acknowledged and its first 28
    characters are queued as a message. *)
Lemma long_submission_is_accepted :
  (28 < String.length frame_long)%nat ∧
  sent (msgreceiver_conn 28 emp_to_tuple ∅ (peer frame_long)).2 = ["OK"] ∧
  (msgreceiver_conn 28 emp_to_tuple ∅ (peer frame_long)).1 !! "loco" =
    Some [msg_A].
Proof. split; [cbn; lia|]. split; evaluate. Qed.

End Runs.


(** * Further properties of the code *)

(** ** The hex text of a frame *)

Lemma Hex_value_digit (c : ascii) (h : N) :
  Hex.value c = Some h →
  (h <? 16)%N = true ∧ Hex.digit h = lower_ascii c.
Proof.
  destruct c as [[] [] [] [] [] [] [] []]; vm_compute; intros H;
    try discriminate; injection H as <-; split; reflexivity.
Qed.

Lemma Hex_encode_byte_ascii (b : byte) : all_ascii (Hex.encode [b]) = true.
Proof. destruct b; vm_compute; reflexivity. Qed.

Lemma Hex_encode_ascii (bs : list byte) : all_ascii (Hex.encode bs) = true.
Proof.
  induction bs as [|b bs IH]; [reflexivity|].
  pose proof (Hex_encode_byte_ascii b) as Hb.
  cbn [Hex.encode all_ascii] in Hb |- *.
  rewrite IH. by rewrite !andb_true_r in Hb |- *.
Qed.

Lemma Hex_encode_length (bs : list byte) :
  String.length (Hex.encode bs) = 2 * length bs.
Proof. induction bs as [|b bs IH]; cbn in *; [done|]. rewrite IH. lia. Qed.

(** What [decode] accepts is the text of its result, up to the case of the
    letters. *)
Lemma Hex_decode_Some_lower (bs : list byte) (s : string) :
  Hex.decode s = Some bs → Hex.encode bs = py_lower s.
Proof.
  revert s. induction bs as [|b bs IH]; intros [|c1 [|c2 s]] H;
    cbn [Hex.decode] in H; try done.
  - destruct (Hex.value c1), (Hex.value c2); try done.
    by destruct (Byte.of_N _), (Hex.decode s).
  - destruct (Hex.value c1) as [h|] eqn:H1; [|done].
    destruct (Hex.value c2) as [l|] eqn:H2; [|done].
    destruct (Byte.of_N (16 * h + l)) as [b'|] eqn:Hb; [|done].
    destruct (Hex.decode s) as [bs'|] eqn:Hs; [|done].
    injection H as -> ->.
    apply Hex_value_digit in H1 as [Hh H1], H2 as [Hl H2].
    apply N.ltb_lt in Hh, Hl. apply Byte.to_of_N in Hb.
    cbn [Hex.encode py_lower]. rewrite Hb.
    replace ((16 * h + l) / 16)%N with h
      by (apply (N.div_unique _ 16 h l); lia).
    replace ((16 * h + l) mod 16)%N with l
      by (apply (N.mod_unique _ 16 h l); lia).
    by rewrite H1, H2, (IH s).
Qed.

(** What [decode] accepts has an even length and hexadecimal digits
    only. *)
Lemma Hex_decode_Some_shape (s : string) (bs : list byte) :
  Hex.decode s = Some bs →
  String.length s = 2 * length bs ∧
  ∀ c, c ∈ list_ascii_of_string s → is_Some (Hex.value c).
Proof.
  intros H. split.
  - rewrite <- Hex_encode_length, (Hex_decode_Some_lower _ _ H).
    clear. induction s as [|c s IH]; cbn; [done|]. by rewrite IH.
  - revert s H. induction bs as [|b bs IH]; intros [|c1 [|c2 s]] H;
      cbn [Hex.decode] in H; try done.
    + cbn. intros c Hc. by apply elem_of_nil in Hc.
    + destruct (Hex.value c1), (Hex.value c2); try done.
      by destruct (Byte.of_N _), (Hex.decode s).
    + destruct (Hex.value c1) as [h|] eqn:H1; [|done].
      destruct (Hex.value c2) as [l|] eqn:H2; [|done].
      destruct (Byte.of_N (16 * h + l)) as [b'|] eqn:Hb; [|done].
      destruct (Hex.decode s) as [bs'|] eqn:Hs; [|done].
      injection H as -> ->. cbn. intros c Hc.
      apply elem_of_cons in Hc as [->|Hc]; [by rewrite H1|].
      apply elem_of_cons in Hc as [->|Hc]; [by rewrite H2|].
      by apply (IH s).
Qed.

(** X9. The text that stands for a frame is ASCII, twice as long as the
    frame, and decodes to the frame again: what a fetch sends for a message
    can be read back by [.decode()] and [.decode('hex')] without loss. *)
Theorem hex_text_round_trip (bs : list byte) :
  py_decode (Hex.encode bs) = Some (Hex.encode bs) ∧
  String.length (Hex.encode bs) = 2 * length bs ∧
  Hex.decode (Hex.encode bs) = Some bs.
Proof.
  unfold py_decode. rewrite Hex_encode_ascii.
  split; [done|]. split; [apply Hex_encode_length|apply Hex_decode_encode].
Qed.

(** ** The loop bodies, further *)

(** Membership in a list that is written out. *)
Ltac in_list :=
  repeat first [apply list_elem_of_here | apply list_elem_of_further].

Ltac not_in_list :=
  let Hin := fresh "Hin" in
  intros Hin;
  repeat (apply elem_of_cons in Hin as [Hin|Hin]; [discriminate|]);
  by apply elem_of_nil in Hin.

Section HandlerProtocol.

Variable MAX_MSG_SIZE : nat.
Variable to_tuple : list byte → option (N * string * string * list byte).

Implicit Types (oq : gmap string MsgQueue) (conn : Conn) (msg : Message).

Local Abbreviation msgreceiver_read := (msgreceiver_read MAX_MSG_SIZE to_tuple).
Local Abbreviation msgreceiver_conn := (msgreceiver_conn MAX_MSG_SIZE to_tuple).
Local Abbreviation fetchwatcher_read := (fetchwatcher_read MAX_MSG_SIZE).
Local Abbreviation fetchwatcher_conn := (fetchwatcher_conn MAX_MSG_SIZE).
Local Abbreviation decode_frame := (decode_frame to_tuple).

(** X1. A frame decoded and acknowledged for a destination with nothing
    waiting is answered, at the next fetch for that destination, with the
    very text that was received, its letters in lower case: the hex digits
    A-F of the sender come back as a-f and nothing else differs. *)
Theorem fetch_answers_the_text_received_in_lower_case
    oq (sconn fconn : Conn) msg :
  recv_raises sconn = false →
  send_raises sconn = false →
  decode_frame (take_chars MAX_MSG_SIZE (peer_data sconn)) = Some msg →
  default [] (oq !! dest_addr msg) = [] →
  fetchwatcher_read fconn = Some (dest_addr msg) →
  send_raises fconn = false →
  sent (fetchwatcher_conn (msgreceiver_conn oq sconn).1 fconn).2 =
    [py_lower (take_chars MAX_MSG_SIZE (peer_data sconn))].
Proof.
  intros Hrecv Hsend Hdec Hq Hread Hfsend.
  rewrite <- (Hex_decode_Some_lower (raw_msg msg))
    by (by apply (decode_frame_raw to_tuple)).
  rewrite <- (msgreceiver_read_recv MAX_MSG_SIZE) in Hdec by done.
  rewrite (msgreceiver_conn_decoded _ _ _ _ _ Hdec), Hsend. cbn [fst].
  rewrite (fetchwatcher_conn_hit _ _ _ (dest_addr msg) msg []); try done.
  - by rewrite Hfsend.
  - by rewrite enqueue_lookup, Hq.
Qed.

(** X3. A submission and a fetch that does not ask for the destination of
    the message submitted do not see each other: handled in either order
    they leave the same dictionary, and each sends and does what it would
    have sent and done alone. *)
Theorem submit_and_fetch_of_another_name_commute oq (sconn fconn : Conn) :
  (∀ msg, msgreceiver_read sconn = Some msg →
          fetchwatcher_read fconn ≠ Some (dest_addr msg)) →
  (fetchwatcher_conn (msgreceiver_conn oq sconn).1 fconn).1 =
    (msgreceiver_conn (fetchwatcher_conn oq fconn).1 sconn).1 ∧
  (fetchwatcher_conn (msgreceiver_conn oq sconn).1 fconn).2 =
    (fetchwatcher_conn oq fconn).2 ∧
  (msgreceiver_conn (fetchwatcher_conn oq fconn).1 sconn).2 =
    (msgreceiver_conn oq sconn).2.
Proof.
  intros Hne.
  destruct (msgreceiver_read sconn) as [msg|] eqn:Hread.
  2: { by rewrite !(msgreceiver_conn_failed _ _ _ _ Hread). }
  rewrite !(msgreceiver_conn_decoded _ _ _ _ _ Hread).
  destruct (send_raises sconn); [done|]. cbn [fst snd].
  specialize (Hne msg eq_refl).
  unfold fetchwatcher_conn.
  destruct (fetchwatcher_read fconn) as [queue_name|]; [|done].
  assert (queue_name ≠ dest_addr msg) as Hd by congruence.
  rewrite (enqueue_lookup_ne _ _ _ Hd).
  destruct (oq !! queue_name) as [[|m q]|] eqn:Hq; cbn; try done.
  split; [|done].
  rewrite !enqueue_insert, lookup_insert_ne by done.
  by apply insert_insert_ne.
Qed.

(** X4. The submit loop closes every connection it has accepted and sends
    at most one answer on it.  Either it sends OK, closes and pushes the
    message decoded, or the dictionary stays as it was, OK is not sent and
    nothing is pushed: OK is never sent for a message that is dropped. *)
Theorem submit_answers_once_and_closes oq conn :
  Close ∈ (msgreceiver_conn oq conn).2 ∧
  (length (sent (msgreceiver_conn oq conn).2) ≤ 1)%nat ∧
  ((∃ msg, msgreceiver_read conn = Some msg ∧
           msgreceiver_conn oq conn =
             (enqueue oq msg, [Send "OK"; Close; Push msg])) ∨
   ((msgreceiver_conn oq conn).1 = oq ∧
    ("OK" ∉ sent (msgreceiver_conn oq conn).2) ∧
    ∀ msg, Push msg ∉ (msgreceiver_conn oq conn).2)).
Proof.
  destruct (msgreceiver_read conn) as [msg|] eqn:Hread.
  - rewrite (msgreceiver_conn_decoded _ _ _ _ _ Hread).
    destruct (send_raises conn); cbn.
    + split; [in_list|]. split; [lia|]. right.
      split; [done|]. split; [|intros msg']; not_in_list.
    + split; [in_list|]. split; [lia|]. left. eauto.
  - rewrite (msgreceiver_conn_failed _ _ _ _ Hread).
    destruct (send_raises conn); cbn.
    + split; [in_list|]. split; [lia|]. right.
      split; [done|]. split; [|intros msg']; not_in_list.
    + split; [in_list|]. split; [lia|]. right.
      split; [done|]. split; [|intros msg']; not_in_list.
Qed.

(** X5. The fetch loop sends at most one answer and closes the connection
    exactly when it has sent one.  When receiving raises, the name is not
    ASCII or sending raises, the connection is left open; when no name
    could be read, nothing at all is done. *)
Theorem fetch_closes_only_after_an_answer oq conn :
  (length (sent (fetchwatcher_conn oq conn).2) ≤ 1)%nat ∧
  (Close ∈ (fetchwatcher_conn oq conn).2 ↔
   length (sent (fetchwatcher_conn oq conn).2) = 1) ∧
  (Close ∈ (fetchwatcher_conn oq conn).2 ↔
   is_Some (fetchwatcher_read conn) ∧ send_raises conn = false) ∧
  (fetchwatcher_read conn = None → fetchwatcher_conn oq conn = (oq, [])).
Proof.
  unfold fetchwatcher_conn.
  destruct (fetchwatcher_read conn) as [queue_name|].
  2: { cbn. split; [lia|]. split; [split; [not_in_list|done]|].
       split; [|done]. split; [not_in_list|]. by intros [[? [=]] _]. }
  destruct (oq !! queue_name) as [[|m q]|]; cbn;
    destruct (send_raises conn); cbn;
    (split; [lia|]);
    (split; [split; first [not_in_list | done | intros _; in_list]|]);
    (split; [|done]);
    (split; [first [not_in_list | by eauto]|]);
    first [by intros [_ [=]] | intros _; in_list].
Qed.

(** X7. A text with an odd number of characters, or holding a character
    that is no hexadecimal digit, is never accepted, whatever the frame
    parser: the answer is FAIL and the dictionary stays as it was. *)
Theorem odd_or_non_hex_text_is_refused oq conn :
  recv_raises conn = false →
  Nat.odd (String.length (take_chars MAX_MSG_SIZE (peer_data conn))) = true ∨
  (∃ c, c ∈ list_ascii_of_string (take_chars MAX_MSG_SIZE (peer_data conn)) ∧
        Hex.value c = None) →
  msgreceiver_conn oq conn =
  (oq, if send_raises conn then [Close] else [Send "FAIL"; Close]).
Proof.
  intros Hrecv Hbad. apply msgreceiver_conn_failed.
  rewrite msgreceiver_read_recv by done.
  destruct (decode_frame _) as [msg|] eqn:Hdec; [exfalso|done].
  apply decode_frame_raw, Hex_decode_Some_shape in Hdec as [Hlen Hval].
  destruct Hbad as [Hodd|(c & Hc & Hnone)].
  - rewrite Hlen, Nat.odd_mul in Hodd. done.
  - destruct (Hval c Hc) as [h Hh]. congruence.
Qed.

(** X14. The fetch loop reads at most MAX_MSG_SIZE characters of the name
    asked for: a longer name is served from the queue named by its first
    MAX_MSG_SIZE characters. *)
Theorem long_queue_name_is_cut oq conn :
  fetchwatcher_conn oq conn =
  fetchwatcher_conn oq
    {| peer_data := take_chars MAX_MSG_SIZE (peer_data conn);
       recv_raises := recv_raises conn;
       send_raises := send_raises conn |}.
Proof.
  unfold fetchwatcher_conn, fetchwatcher_read, conn_recv.
  cbn. by rewrite take_chars_idemp.
Qed.

End HandlerProtocol.

(** ** What every run keeps *)

Section RunInvariants.

Variable MAX_MSG_SIZE : nat.
Variable to_tuple : list byte → option (N * string * string * list byte).

Implicit Types (oq : gmap string MsgQueue) (conn : Conn) (msg : Message).
Implicit Types (b : Broker) (ops : list op) (d : string).

Local Abbreviation msgreceiver_read := (msgreceiver_read MAX_MSG_SIZE to_tuple).
Local Abbreviation msgreceiver_conn := (msgreceiver_conn MAX_MSG_SIZE to_tuple).
Local Abbreviation fetchwatcher_read := (fetchwatcher_read MAX_MSG_SIZE).
Local Abbreviation fetchwatcher_conn := (fetchwatcher_conn MAX_MSG_SIZE).
Local Abbreviation decode_frame := (decode_frame to_tuple).
Local Abbreviation exec := (exec MAX_MSG_SIZE to_tuple).
Local Abbreviation run := (run MAX_MSG_SIZE to_tuple).

(** What holds of every message the submit loop can decode, under the
    name of its destination. *)
Variable P : string → Message → Prop.
Hypothesis P_decoded :
  ∀ conn msg, msgreceiver_read conn = Some msg → P (dest_addr msg) msg.

Lemma enqueue_all_queued oq msg :
  P (dest_addr msg) msg → all_queued P oq → all_queued P (enqueue oq msg).
Proof.
  intros Hmsg Hall d q m Hq Hm.
  destruct (decide (d = dest_addr msg)) as [->|Hd].
  - rewrite enqueue_lookup in Hq. injection Hq as <-.
    apply elem_of_app in Hm as [Hm|Hm].
    + destruct (oq !! dest_addr msg) as [q0|] eqn:Hq0; cbn in Hm.
      * by apply (Hall _ q0).
      * by apply elem_of_nil in Hm.
    + by apply list_elem_of_singleton in Hm as ->.
  - rewrite enqueue_lookup_ne in Hq by done. by apply (Hall d q).
Qed.

Lemma msgreceiver_conn_all_queued oq conn :
  all_queued P oq →
  all_queued P (msgreceiver_conn oq conn).1 ∧
  ∀ d msg, Pop d msg ∉ (msgreceiver_conn oq conn).2.
Proof.
  intros Hall.
  destruct (msgreceiver_read conn) as [msg|] eqn:Hread.
  - rewrite (msgreceiver_conn_decoded _ _ _ _ _ Hread).
    destruct (send_raises conn); cbn; (split; [|intros d m; not_in_list]);
      [done|].
    apply enqueue_all_queued; [|done]. by apply (P_decoded conn).
  - rewrite (msgreceiver_conn_failed _ _ _ _ Hread). cbn.
    split; [done|]. intros d m. destruct (send_raises conn); not_in_list.
Qed.

Lemma fetchwatcher_conn_all_queued oq conn :
  all_queued P oq →
  all_queued P (fetchwatcher_conn oq conn).1 ∧
  ∀ d msg, Pop d msg ∈ (fetchwatcher_conn oq conn).2 → P d msg.
Proof.
  intros Hall. unfold fetchwatcher_conn.
  destruct (fetchwatcher_read conn) as [queue_name|]; cbn.
  2: { split; [done|]. intros d m Hin. by apply elem_of_nil in Hin. }
  destruct (oq !! queue_name) as [[|m q]|] eqn:Hq; cbn.
  - split; [done|]. intros d m.
    destruct (send_raises conn); not_in_list.
  - split.
    + intros d q' m' Hq' Hm'.
      destruct (decide (d = queue_name)) as [->|Hd].
      * rewrite lookup_insert_eq in Hq'. injection Hq' as <-.
        apply (Hall _ _ _ Hq). by apply list_elem_of_further.
      * rewrite lookup_insert_ne in Hq' by done. by apply (Hall d q').
    + intros d m' Hin.
      apply elem_of_cons in Hin as [[= -> ->]|Hin].
      * apply (Hall _ _ _ Hq). apply list_elem_of_here.
      * exfalso. revert Hin. destruct (send_raises conn); not_in_list.
  - split; [done|]. intros d m.
    destruct (send_raises conn); not_in_list.
Qed.

Lemma exec_all_queued b o :
  all_queued P (outgoing_queues b) →
  all_queued P (outgoing_queues (exec b o).1) ∧
  ∀ d msg, Pop d msg ∈ (exec b o).2 → P d msg.
Proof.
  intros Hall.
  assert (∀ d msg, Pop d msg ∈ ([] : list Event) → P d msg) as Hnil.
  { intros d m Hin. by apply elem_of_nil in Hin. }
  destruct o as [t| |conn|conn|]; cbn -[start stop].
  - by rewrite start_queues.
  - by rewrite stop_queues.
  - destruct (running b); [|done].
    destruct (msgreceiver_conn_all_queued (outgoing_queues b) conn Hall)
      as [H1 H2].
    destruct (msgreceiver_conn _ conn) as [oq evs]. cbn in *.
    split; [done|]. intros d m Hin. by destruct (H2 d m).
  - destruct (running b); [|done].
    pose proof (fetchwatcher_conn_all_queued (outgoing_queues b) conn Hall).
    by destruct (fetchwatcher_conn _ conn).
  - by destruct (running b).
Qed.

Lemma run_all_queued b ops :
  all_queued P (outgoing_queues b) →
  all_queued P (outgoing_queues (run b ops).1) ∧
  ∀ d msg, Pop d msg ∈ concat (run b ops).2 → P d msg.
Proof.
  revert b. induction ops as [|o ops IH]; intros b Hall.
  - split; [done|]. intros d m Hin. by apply elem_of_nil in Hin.
  - rewrite run_cons. cbn [fst snd concat].
    destruct (exec_all_queued b o Hall) as [H1 H2].
    destruct (IH _ H1) as [H3 H4].
    split; [done|]. intros d m Hin.
    apply elem_of_app in Hin as [Hin|Hin]; eauto.
Qed.

End RunInvariants.

(** ** Runs, further *)

Section RunProperties.

Variable MAX_MSG_SIZE : nat.
Variable to_tuple : list byte → option (N * string * string * list byte).

Implicit Types (oq : gmap string MsgQueue) (conn : Conn) (msg : Message).
Implicit Types (b : Broker) (ops : list op) (d : string).

Local Abbreviation msgreceiver_read := (msgreceiver_read MAX_MSG_SIZE to_tuple).
Local Abbreviation msgreceiver_conn := (msgreceiver_conn MAX_MSG_SIZE to_tuple).
Local Abbreviation fetchwatcher_read := (fetchwatcher_read MAX_MSG_SIZE).
Local Abbreviation fetchwatcher_conn := (fetchwatcher_conn MAX_MSG_SIZE).
Local Abbreviation decode_frame := (decode_frame to_tuple).
Local Abbreviation Message_of_raw := (Message_of_raw to_tuple).
Local Abbreviation exec := (exec MAX_MSG_SIZE to_tuple).
Local Abbreviation run := (run MAX_MSG_SIZE to_tuple).

Lemma all_queued_empty (P : string → Message → Prop) : all_queued P ∅.
Proof. intros d q m Hq. by rewrite lookup_empty in Hq. Qed.

Lemma Message_of_raw_Some (raw : list byte) msg :
  Message_of_raw raw = Some msg →
  raw_msg msg = raw ∧ Message_of_raw (raw_msg msg) = Some msg.
Proof.
  intros H. assert (raw_msg msg = raw) as Hraw.
  { unfold Message_of_raw in H.
    destruct (to_tuple raw) as [[[[t s] d] p]|]; [|done].
    by injection H as <-. }
  by rewrite Hraw.
Qed.

(** A message that the submit loop decodes is rebuilt from its own bytes,
    which are at most half as many as MAX_MSG_SIZE. *)
Lemma msgreceiver_read_raw conn msg :
  msgreceiver_read conn = Some msg →
  Message_of_raw (raw_msg msg) = Some msg ∧
  (2 * length (raw_msg msg) ≤ MAX_MSG_SIZE)%nat.
Proof.
  unfold msgreceiver_read, conn_recv.
  destruct (recv_raises conn); [done|]. cbn.
  set (data := take_chars MAX_MSG_SIZE (peer_data conn)). intros Hdec.
  pose proof (decode_frame_raw _ _ _ Hdec) as Hraw.
  apply Hex_decode_Some_shape in Hraw as [Hlen _].
  pose proof (take_chars_length MAX_MSG_SIZE (peer_data conn)) as Hle.
  fold data in Hle. split; [|lia].
  unfold decode_frame, py_decode in Hdec.
  destruct (all_ascii data); [|done]. cbn in Hdec.
  destruct (Hex.decode data) as [frame|]; [|done]. cbn in Hdec.
  by apply Message_of_raw_Some in Hdec as [_ ?].
Qed.

(** X2. From a new Broker on, whatever is submitted and fetched, every
    message waiting in a queue is addressed to the name of that queue,
    and a fetch for a name only ever pops messages whose destination is
    that name: no client is served a message meant for another. *)
Theorem served_message_is_addressed_to_the_name ops :
  all_queued (λ d msg, dest_addr msg = d)
    (outgoing_queues (run Broker_init ops).1) ∧
  ∀ d msg, Pop d msg ∈ concat (run Broker_init ops).2 → dest_addr msg = d.
Proof.
  apply (run_all_queued MAX_MSG_SIZE to_tuple (λ d msg, dest_addr msg = d)).
  - by intros conn msg _.
  - apply all_queued_empty.
Qed.

(** X10. From a new Broker on, the text that a fetch sends for a message
    is a text that the submit loop accepts in full and decodes to that same
    message: what is fetched can be submitted again as it is, to this
    broker or to another one with the same parser and bound. *)
Theorem served_text_is_accepted_again ops d msg conn :
  Pop d msg ∈ concat (run Broker_init ops).2 →
  recv_raises conn = false →
  peer_data conn = Hex.encode (raw_msg msg) →
  msgreceiver_read conn = Some msg.
Proof.
  intros Hin Hrecv Hdata.
  destruct (run_all_queued MAX_MSG_SIZE to_tuple
              (λ _ msg', Message_of_raw (raw_msg msg') = Some msg' ∧
                         (2 * length (raw_msg msg') ≤ MAX_MSG_SIZE)%nat)
              (λ c m H, msgreceiver_read_raw c m H)
              Broker_init ops (all_queued_empty _))
    as [_ H2].
  destruct (H2 d msg Hin) as [Hraw Hlen].
  rewrite msgreceiver_read_recv, Hdata by done.
  rewrite take_chars_all by (rewrite Hex_encode_length; lia).
  unfold decode_frame, py_decode. rewrite Hex_encode_ascii. cbn.
  by rewrite Hex_decode_encode.
Qed.

Lemma fetchwatcher_read_Some conn (queue_name : string) :
  fetchwatcher_read conn = Some queue_name →
  all_ascii queue_name = true ∧
  (String.length queue_name ≤ MAX_MSG_SIZE)%nat.
Proof.
  unfold fetchwatcher_read, conn_recv, py_decode.
  destruct (recv_raises conn); [done|]. cbn.
  destruct (all_ascii _) eqn:Hascii; [|done].
  intros [= <-]. split; [done|apply take_chars_length].
Qed.

Lemma exec_popped_unreadable b o d :
  all_ascii d = false ∨ (MAX_MSG_SIZE < String.length d)%nat →
  popped d (exec b o).2 = [].
Proof.
  intros Hd. destruct o as [t| |conn|conn|]; cbn -[start stop]; try done.
  - destruct (running b); [|done].
    destruct (msgreceiver_read conn) as [msg|] eqn:Hread.
    + rewrite (msgreceiver_conn_decoded _ _ _ _ _ Hread).
      by destruct (send_raises conn).
    + rewrite (msgreceiver_conn_failed _ _ _ _ Hread).
      by destruct (send_raises conn).
  - destruct (running b); [|done].
    unfold fetchwatcher_conn.
    destruct (fetchwatcher_read conn) as [queue_name|] eqn:Hread; [|done].
    apply fetchwatcher_read_Some in Hread as [Hascii Hlen].
    assert (queue_name ≠ d) as Hne.
    { intros ->. destruct Hd as [Hd|Hd]; [congruence|lia]. }
    destruct (outgoing_queues b !! queue_name) as [[|m q]|]; cbn;
      destruct (send_raises conn); cbn; by try case_decide.
  - by destruct (running b).
Qed.

Lemma popped_app d (evs1 evs2 : list Event) :
  popped d (evs1 ++ evs2) = popped d evs1 ++ popped d evs2.
Proof. apply omap_app. Qed.

Lemma pushed_app d (evs1 evs2 : list Event) :
  pushed d (evs1 ++ evs2) = pushed d evs1 ++ pushed d evs2.
Proof. apply omap_app. Qed.

Lemma run_popped_unreadable b ops d :
  all_ascii d = false ∨ (MAX_MSG_SIZE < String.length d)%nat →
  popped d (concat (run b ops).2) = [].
Proof.
  intros Hd. revert b. induction ops as [|o ops IH]; intros b; [done|].
  rewrite run_cons. cbn [fst snd concat].
  by rewrite popped_app, IH, (exec_popped_unreadable b o d Hd).
Qed.

(** X6. A destination whose name is not ASCII, or is longer than
    MAX_MSG_SIZE, can be submitted to but never fetched from: along every
    run nothing is ever popped from its queue, which holds all that it
    held at first and all that was pushed on it since. *)
Theorem queue_of_unreadable_name_is_never_served b ops d :
  all_ascii d = false ∨ (MAX_MSG_SIZE < String.length d)%nat →
  popped d (concat (run b ops).2) = [] ∧
  default [] (outgoing_queues (run b ops).1 !! d) =
    default [] (outgoing_queues b !! d) ++ pushed d (concat (run b ops).2).
Proof.
  intros Hd. split; [by apply run_popped_unreadable|].
  rewrite <- (run_conserves MAX_MSG_SIZE to_tuple b ops d).
  by rewrite run_popped_unreadable.
Qed.

Lemma exec_dom_pushed b o d :
  d ∈ dom (outgoing_queues (exec b o).1) →
  d ∈ dom (outgoing_queues b) ∨ pushed d (exec b o).2 ≠ [].
Proof.
  intros Hin.
  destruct (exec_dom MAX_MSG_SIZE to_tuple b o)
    as [Heq|(conn & msg & -> & Hrun & Hread & Hsend & _ & Heq)].
  - left. by rewrite <- Heq.
  - rewrite Heq in Hin. apply elem_of_union in Hin as [Hin|Hin]; [|by left].
    apply elem_of_singleton in Hin as ->. right.
    rewrite (exec_submit_decoded _ _ _ _ _ Hrun Hread Hsend). cbn.
    by rewrite decide_True.
Qed.

Lemma run_dom_pushed b ops d :
  d ∈ dom (outgoing_queues (run b ops).1) →
  d ∈ dom (outgoing_queues b) ∨ pushed d (concat (run b ops).2) ≠ [].
Proof.
  revert b. induction ops as [|o ops IH]; intros b; [by left|].
  rewrite run_cons. cbn [fst snd concat]. intros Hin.
  rewrite pushed_app.
  destruct (IH _ Hin) as [Hdom|Hpush].
  - destruct (exec_dom_pushed b o d Hdom) as [?|Hpush]; [by left|].
    right. intros Happ. by apply app_eq_nil in Happ as [? _].
  - right. intros Happ. by apply app_eq_nil in Happ as [_ ?].
Qed.

(** X8. From a new Broker on, a queue exists only for a destination on
    which a message has been pushed: fetching, sweeping, stopping and
    starting make no queue, and no queue is made empty. *)
Theorem every_queue_has_received_a_message ops d :
  d ∈ dom (outgoing_queues (run Broker_init ops).1) →
  pushed d (concat (run Broker_init ops).2) ≠ [].
Proof.
  intros Hin. destruct (run_dom_pushed Broker_init ops d Hin) as [H|H]; [|done].
  cbn in H. by rewrite dom_empty_L in H.
Qed.

End RunProperties.

(** ** The life cycles *)

Lemma Broker_call_ok (o : BrokerObj) (c : call) :
  Broker_threads_ok o →
  (Broker_call o c).2 = Returned ∧
  Broker_threads_ok (Broker_call o c).1 ∧
  state (Broker_call o c).1 = flags_call (state o) c.
Proof.
  destruct o as [[oq r rr] t1 t2 t3]. unfold Broker_threads_ok. cbn.
  intros (-> & -> & ->).
  destruct c as [terminal|]; destruct r, rr; try destruct terminal; done.
Qed.

(** X11. Whatever sequence of [start] and [stop] is called on a Broker, no
    call raises: a thread object is never started twice and never joined
    before it is started, because [stop] makes the thread objects anew.
    After every call the thread objects are started exactly when the
    broker is running, and the flags and the queues are those that
    [start] and [stop] give on the flags alone. *)
Theorem Broker_start_stop_never_raise (cs : list call) :
  Forall (λ r, r = Returned) (Broker_calls BrokerObj_init cs).2 ∧
  Broker_threads_ok (Broker_calls BrokerObj_init cs).1 ∧
  state (Broker_calls BrokerObj_init cs).1 = foldl flags_call Broker_init cs.
Proof.
  assert (∀ o, Broker_threads_ok o →
            Forall (λ r, r = Returned) (Broker_calls o cs).2 ∧
            Broker_threads_ok (Broker_calls o cs).1 ∧
            state (Broker_calls o cs).1 = foldl flags_call (state o) cs) as H.
  { induction cs as [|c cs IH]; intros o Hok; [done|].
    destruct (Broker_call_ok o c Hok) as (Hr & Hok1 & Hst).
    cbn [Broker_calls foldl].
    destruct (Broker_call o c) as [o1 r]. cbn in Hr, Hok1, Hst.
    destruct (IH o1 Hok1) as (IH1 & IH2 & IH3).
    destruct (Broker_calls o1 cs) as [o2 rs]. cbn in *.
    split; [by constructor|]. split; [done|]. by rewrite IH3, Hst. }
  by apply H.
Qed.

Lemma SimLoco_call_ok (l : SimLoco) (c : call) :
  SimLoco_threads_ok l →
  (SimLoco_call l c).2 = Returned ∧
  SimLoco_threads_ok (SimLoco_call l c).1 ∧
  loco_running (SimLoco_call l c).1 =
    match c with CallStart _ => true | CallStop => false end.
Proof.
  destruct l as [r rs t1 t2]. unfold SimLoco_threads_ok. cbn.
  intros (-> & ->).
  destruct c as [terminal|]; destruct r; done.
Qed.

(** X12. Whatever sequence of [start] and [stop] is called on a SimLoco,
    no call raises; after every call the two thread objects are started
    exactly when the simulation is running, and it is running exactly when
    the last call was a [start]. *)
Theorem SimLoco_start_stop_never_raise (cs : list call) :
  Forall (λ r, r = Returned) (SimLoco_calls SimLoco_init cs).2 ∧
  SimLoco_threads_ok (SimLoco_calls SimLoco_init cs).1 ∧
  loco_running (SimLoco_calls SimLoco_init cs).1 =
    match last cs with Some (CallStart _) => true | _ => false end.
Proof.
  assert (∀ l, SimLoco_threads_ok l →
            Forall (λ r, r = Returned) (SimLoco_calls l cs).2 ∧
            SimLoco_threads_ok (SimLoco_calls l cs).1 ∧
            loco_running (SimLoco_calls l cs).1 =
              match last cs with
              | Some (CallStart _) => true
              | Some CallStop => false
              | None => loco_running l
              end) as H.
  { induction cs as [|c cs IH]; intros l Hok; [done|].
    destruct (SimLoco_call_ok l c Hok) as (Hr & Hok1 & Hrun).
    cbn [SimLoco_calls].
    destruct (SimLoco_call l c) as [l1 r]. cbn in Hr, Hok1, Hrun.
    destruct (IH l1 Hok1) as (IH1 & IH2 & IH3).
    destruct (SimLoco_calls l1 cs) as [l2 rs]. cbn [fst snd] in *.
    split; [by constructor|]. split; [done|].
    rewrite IH3. destruct cs as [|c' cs].
    - cbn. rewrite Hrun. by destruct c.
    - change (last (c :: c' :: cs)) with (last (c' :: cs)).
      destruct (last (c' :: cs)) as [[]|] eqn:Hl; try done.
      by apply last_None in Hl. }
  destruct (H SimLoco_init) as (H1 & H2 & H3); [done|].
  split; [done|]. split; [done|]. rewrite H3.
  by destruct (last cs) as [[]|].
Qed.

(** X13. A BOS object can be started once only.  Whatever its state and
    however [web.run] ended, a second call of [start] raises at
    [status_watcher_thread.start()], a thread started before: it leaves
    [running] set although it has started no thread, and the thread
    objects and [locos_table] as they were. *)
Theorem BOS_cannot_be_started_again (o : BOS) (w1 w2 : bool) :
  let o1 := (BOS_start w1 o).1 in
  (BOS_start w2 o1).2 = Raised ∧
  bos_running (BOS_start w2 o1).1 = true ∧
  status_watcher_thread (BOS_start w2 o1).1 = status_watcher_thread o1 ∧
  webupdate_thread (BOS_start w2 o1).1 = webupdate_thread o1 ∧
  locos_table (BOS_start w2 o1).1 = locos_table o1 ∧
  status_watcher_thread o1 = Started.
Proof. destruct o as [r [] [] tbl], w1, w2; done. Qed.

(** ** Concrete runs, further *)

Section MoreRuns.

Import Sample Sample2.

Local Abbreviation MAX := 64%nat.

Local Ltac evaluate := vm_compute; reflexivity.

Lemma fetch_answers_the_text_received_in_lower_case_witness :
  sent (fetchwatcher_conn MAX
          (msgreceiver_conn MAX emp_to_tuple ∅ (peer frame_A_upper)).1
          (peer "loco")).2 = [frame_A].
Proof.
  exact (fetch_answers_the_text_received_in_lower_case MAX emp_to_tuple ∅
           (peer frame_A_upper) (peer "loco") msg_A
           ltac:(evaluate) ltac:(evaluate) ltac:(evaluate) ltac:(evaluate)
           ltac:(evaluate) ltac:(evaluate)).
Defined.

Lemma served_message_is_addressed_to_the_name_witness :
  Pop "loco" msg_A ∈
    concat (run MAX emp_to_tuple Broker_init
              [OpStart false; OpSubmit (peer frame_A);
               OpFetch (peer "loco")]).2 ∧
  dest_addr msg_A = "loco".
Proof.
  assert (Pop "loco" msg_A ∈
            concat (run MAX emp_to_tuple Broker_init
                      [OpStart false; OpSubmit (peer frame_A);
                       OpFetch (peer "loco")]).2) as Hin
    by (vm_compute; in_list).
  split; [exact Hin|].
  exact (proj2 (served_message_is_addressed_to_the_name MAX emp_to_tuple _)
           "loco" msg_A Hin).
Defined.

Lemma submit_and_fetch_of_another_name_commute_witness :
  (fetchwatcher_conn MAX
     (msgreceiver_conn MAX emp_to_tuple ∅ (peer frame_A)).1 (peer "yard")).1 =
    (msgreceiver_conn MAX emp_to_tuple
       (fetchwatcher_conn MAX ∅ (peer "yard")).1 (peer frame_A)).1 ∧
  (fetchwatcher_conn MAX
     (msgreceiver_conn MAX emp_to_tuple ∅ (peer frame_A)).1 (peer "yard")).2 =
    (fetchwatcher_conn MAX ∅ (peer "yard")).2 ∧
  (msgreceiver_conn MAX emp_to_tuple
     (fetchwatcher_conn MAX ∅ (peer "yard")).1 (peer frame_A)).2 =
    (msgreceiver_conn MAX emp_to_tuple ∅ (peer frame_A)).2.
Proof.
  apply (submit_and_fetch_of_another_name_commute MAX emp_to_tuple ∅
           (peer frame_A) (peer "yard")).
  intros msg Hread. vm_compute in Hread. injection Hread as <-.
  vm_compute. discriminate.
Defined.

Lemma queue_of_unreadable_name_is_never_served_witness :
  all_ascii name_C = false ∧
  popped name_C
    (concat (run MAX emp_to_tuple started
               [OpSubmit (peer frame_C); OpFetch (peer name_C)]).2) = [] ∧
  default []
    (outgoing_queues
       (run MAX emp_to_tuple started
          [OpSubmit (peer frame_C); OpFetch (peer name_C)]).1 !! name_C) =
    [msg_C].
Proof.
  split; [evaluate|].
  destruct (queue_of_unreadable_name_is_never_served MAX emp_to_tuple started
              [OpSubmit (peer frame_C); OpFetch (peer name_C)] name_C
              (or_introl eq_refl)) as [H1 H2].
  split; [exact H1|]. rewrite H2. evaluate.
Defined.

Lemma odd_or_non_hex_text_is_refused_witness :
  msgreceiver_conn MAX emp_to_tuple ∅ (peer frame_A_typo) =
    (∅, [Send "FAIL"; Close]).
Proof.
  apply (odd_or_non_hex_text_is_refused MAX emp_to_tuple ∅
           (peer frame_A_typo) eq_refl).
  right. exists "g"%char. split; [vm_compute; in_list|evaluate].
Defined.

Lemma every_queue_has_received_a_message_witness :
  "loco" ∈ dom (outgoing_queues
                  (run MAX emp_to_tuple Broker_init
                     [OpStart false; OpSubmit (peer frame_A);
                      OpFetch (peer "loco")]).1) ∧
  pushed "loco"
    (concat (run MAX emp_to_tuple Broker_init
               [OpStart false; OpSubmit (peer frame_A);
                OpFetch (peer "loco")]).2) ≠ [].
Proof.
  assert ("loco" ∈ dom (outgoing_queues
                          (run MAX emp_to_tuple Broker_init
                             [OpStart false; OpSubmit (peer frame_A);
                              OpFetch (peer "loco")]).1)) as Hin.
  { apply elem_of_dom. exists []. evaluate. }
  split; [exact Hin|].
  exact (every_queue_has_received_a_message MAX emp_to_tuple _ "loco" Hin).
Defined.

Lemma served_text_is_accepted_again_witness :
  msgreceiver_read MAX emp_to_tuple (peer frame_A) = Some msg_A.
Proof.
  apply (served_text_is_accepted_again MAX emp_to_tuple
           [OpStart false; OpSubmit (peer frame_A); OpFetch (peer "loco")]
           "loco" msg_A (peer frame_A)).
  - vm_compute. in_list.
  - reflexivity.
  - evaluate.
Defined.

End MoreRuns.

(** ** Where the specification says more than the code does *)

Section Limits.

Import Sample Sample2.

Local Abbreviation MAX := 64%nat.

Local Ltac evaluate := vm_compute; reflexivity.

(** C1, as the specification has it, fails: with a bound of 28
    characters, the 32 characters of [frame_long] stand for 16 bytes; the
    submission is decoded and acknowledged, and the fetch for "loco"
    answers with the text of 14 bytes. *)
Lemma long_submission_comes_back_cut :
  msgreceiver_read 28 emp_to_tuple (peer frame_long) = Some msg_A ∧
  fetchwatcher_read 28 (peer "loco") = Some (dest_addr msg_A) ∧
  map sent (run 28 emp_to_tuple started
              [OpSubmit (peer frame_long); OpFetch (peer "loco")]).2 =
    [["OK"]; [frame_A]] ∧
  length <$> Hex.decode frame_A = Some 14 ∧
  length <$> Hex.decode frame_long = Some 16 ∧
  Hex.decode frame_A ≠ Hex.decode frame_long.
Proof.
  repeat (split; [evaluate|]). vm_compute. discriminate.
Qed.

(** C2, as the specification has it, fails: two frames for the
    destination [name_C], which is not ASCII, are decoded and
    acknowledged one after the other, and the two fetches that follow for
    [name_C] send nothing. *)
Lemma unreadable_destination_is_not_served :
  msgreceiver_read MAX emp_to_tuple (peer frame_C) = Some msg_C ∧
  msgreceiver_read MAX emp_to_tuple (peer frame_D) = Some msg_D ∧
  dest_addr msg_C = name_C ∧ dest_addr msg_D = name_C ∧
  map sent (run MAX emp_to_tuple started
              [OpSubmit (peer frame_C); OpSubmit (peer frame_D);
               OpFetch (peer name_C); OpFetch (peer name_C)]).2 =
    [["OK"]; ["OK"]; []; []] ∧
  outgoing_queues
    (run MAX emp_to_tuple started
       [OpSubmit (peer frame_C); OpSubmit (peer frame_D);
        OpFetch (peer name_C); OpFetch (peer name_C)]).1 !! name_C =
    Some [msg_C; msg_D].
Proof. repeat (split; [evaluate|]). evaluate. Qed.

(** C3, as the specification has it, fails: a fetch for [name_C], for
    which there is no queue, is not answered at all, and its connection
    is not closed. *)
Lemma unreadable_name_gets_no_answer :
  (∅ : gmap string MsgQueue) !! name_C = None ∧
  recv_raises (peer name_C) = false ∧
  send_raises (peer name_C) = false ∧
  fetchwatcher_conn MAX ∅ (peer name_C) = (∅, []).
Proof. repeat (split; [evaluate|]). evaluate. Qed.

End Limits.
